(** * Seren Steps dashboard: tile synchronisation and edit session

    A shallow embedding of the tile core of the dashboard:
    - [App] (the sync controller): [fetchTiles], [seedDefaultTiles],
      [handleSave], [handleReset] against the Supabase [tiles] table;
    - [LinkManager] (the edit session): [handleUpdateTile], [handleAddTile],
      [handleDeleteTile], the drag handlers with [handleDrop],
      [handleImageUpload] and [handleRemoveImage].

    React state is a record, one field per [useState] hook, and every
    [setX] call is a setter on that record.  Handlers are programs in a small
    state-and-exception monad, so that [try]/[catch]/[finally] read as in the
    source.  What the outside world decides (whether a store call succeeds,
    the clock, the answer to [window.confirm]) is an argument of the
    handler. *)

From Stdlib Require Import Ascii.
From stdpp Require Import base strings list sorting pretty.

(** ** JavaScript primitives used by the handlers *)

Module Js.

(** [x || null] and [x || undefined] on an optional string: a missing value
    and the empty string are both falsy. *)
Definition orNull (x : option string) : option string :=
  match x with
  | Some s => if String.eqb s "" then None else Some s
  | None => None
  end.

Definition orUndefined (x : option string) : option string := orNull x.

(** [!x] on an optional string. *)
Definition falsy (x : option string) : bool :=
  match orNull x with Some _ => false | None => true end.

(** [arr.splice(start, deleteCount, ...items)]: the removed elements and the
    array afterwards.  A negative [start] counts from the end, [start] is
    clamped to the length and [deleteCount] to what is left. *)
Definition splice {A : Type} (arr : list A) (start deleteCount : Z)
    (items : list A) : list A * list A :=
  let len := Z.of_nat (length arr) in
  let actualStart :=
    Z.to_nat (if (start <? 0)%Z then Z.max (len + start) 0
              else Z.min start len) in
  let actualDeleteCount :=
    Z.to_nat (Z.min (Z.max deleteCount 0) (len - Z.of_nat actualStart)) in
  (take actualDeleteCount (drop actualStart arr),
   take actualStart arr ++ items ++ drop (actualStart + actualDeleteCount) arr).

(** [const [x] = arr]: the first element, [undefined] for an empty array. *)
Definition first {A : Type} (undefined : A) (arr : list A) : A :=
  default undefined (head arr).

(** [s.split(sep)] for a one-character separator. *)
Fixpoint split (sep : Ascii.ascii) (s : string) : list string :=
  match s with
  | EmptyString => [EmptyString]
  | String c s' =>
      if Ascii.eqb c sep then EmptyString :: split sep s'
      else match split sep s' with
           | seg :: segs => String c seg :: segs
           | [] => [String c EmptyString]
           end
  end.

(** [arr.pop()] read for its value, on an array of strings and where the
    value goes into a template literal: the last element, and [undefined]
    (printed as such) for an empty array. *)
Definition pop (arr : list string) : string := default "undefined" (last arr).

(** How one awaited call to Supabase ends: it resolves to a response
    carrying [data], it resolves to a response carrying [error], or the
    promise rejects. *)
Inductive Outcome : Type :=
| Succeeds
| ReturnsError (e : string)
| Throws (e : string).

(** The [{ data, error }] response of the Supabase client, or a rejected
    promise. *)
Inductive Reply (T : Type) : Type :=
| Resolved (data : option T) (error : option string)
| Rejected (reason : string).
Arguments Resolved {T} data error.
Arguments Rejected {T} reason.

Definition reply_of {T : Type} (o : Outcome) (data : T) : Reply T :=
  match o with
  | Succeeds => Resolved (Some data) None
  | ReturnsError e => Resolved None (Some e)
  | Throws e => Rejected e
  end.

(** The call failed with [e]: the response carries the error [e], or the
    promise was rejected with [e]. *)
Definition failed_with {T : Type} (reply : Reply T) (e : string) : Prop :=
  match reply with
  | Resolved _ (Some e') => e' = e
  | Resolved _ None => False
  | Rejected e' => e' = e
  end.

End Js.

(** ** A program with state [S] that returns a [T] or throws *)

Definition Eff (S T : Type) : Type := S → S * (string + T).

Definition ret {S T : Type} (x : T) : Eff S T := λ s, (s, inr x).

Definition throw {S T : Type} (e : string) : Eff S T := λ s, (s, inl e).

Definition bind {S T U : Type} (m : Eff S T) (k : T → Eff S U) : Eff S U :=
  λ s, match m s with
       | (s', inr x) => k x s'
       | (s', inl e) => (s', inl e)
       end.

Definition modify {S : Type} (f : S → S) : Eff S unit := λ s, (f s, inr tt).

Definition get {S : Type} : Eff S S := λ s, (s, inr s).

(** [try { body } catch (err) { handler err }] *)
Definition try_catch {S T : Type} (body : Eff S T) (handler : string → Eff S T)
    : Eff S T :=
  λ s, match body s with
       | (s', inr x) => (s', inr x)
       | (s', inl e) => handler e s'
       end.

(** [try { body } finally { cleanup }] *)
Definition try_finally {S T : Type} (body : Eff S T) (cleanup : Eff S unit)
    : Eff S T :=
  λ s, match body s with
       | (s', r) =>
           match cleanup s' with
           | (s'', inr _) => (s'', r)
           | (s'', inl e) => (s'', inl e)
           end
       end.

(** [await p]: a rejected promise throws at the [await]. *)
Definition await {S T : Type} (p : S → S * Js.Reply T)
    : Eff S (option T * option string) :=
  λ s, match p s with
       | (s', Js.Resolved data error) => (s', inr (data, error))
       | (s', Js.Rejected e) => (s', inl e)
       end.

(** The state a handler leaves behind. *)
Definition exec {S T : Type} (m : Eff S T) (s : S) : S := fst (m s).

Declare Scope eff_scope.
Delimit Scope eff_scope with eff.
Notation "x <- m ;; k" := (bind m (λ x, k))
  (at level 100, m at next level, right associativity) : eff_scope.
Notation "m ;; k" := (bind m (λ _, k))
  (at level 100, right associativity) : eff_scope.

(** ** Data model *)

(** [TileDefinition] of [types.ts]; the optional fields are [option]s, with
    [None] for a missing ([undefined]) field. *)
Record TileDefinition : Type := {
  id : string;
  label : string;
  url : string;
  icon : string;
  imageUrl : option string;
  description : option string
}.

#[global] Instance TileDefinition_eq_dec : EqDecision TileDefinition.
Proof. solve_decision. Defined.

(** [keyof TileDefinition] *)
Inductive Field : Type :=
| Fid | Flabel | Furl | Ficon | FimageUrl | Fdescription.

(** [{ ...t, [field]: value }] *)
Definition with_field (t : TileDefinition) (field : Field) (value : string)
    : TileDefinition :=
  match field with
  | Fid => {| id := value; label := label t; url := url t; icon := icon t;
              imageUrl := imageUrl t; description := description t |}
  | Flabel => {| id := id t; label := value; url := url t; icon := icon t;
                 imageUrl := imageUrl t; description := description t |}
  | Furl => {| id := id t; label := label t; url := value; icon := icon t;
               imageUrl := imageUrl t; description := description t |}
  | Ficon => {| id := id t; label := label t; url := url t; icon := value;
                imageUrl := imageUrl t; description := description t |}
  | FimageUrl => {| id := id t; label := label t; url := url t; icon := icon t;
                    imageUrl := Some value; description := description t |}
  | Fdescription => {| id := id t; label := label t; url := url t;
                       icon := icon t; imageUrl := imageUrl t;
                       description := Some value |}
  end.

(** [DEFAULT_TILES] of [constants.tsx]. *)
Definition default_tile (i l u ic d : string) : TileDefinition :=
  {| id := i; label := l; url := u; icon := ic; imageUrl := None;
     description := Some d |}.

Definition DEFAULT_TILES : list TileDefinition :=
  [ default_tile "clearcare" "ClearCare" "https://example.com/clearcare"
      "HeartHandshake" "Care management system";
    default_tile "email" "Email" "https://outlook.office.com"
      "Mail" "Microsoft Outlook Web";
    default_tile "teams" "Teams" "https://teams.microsoft.com"
      "Users" "Communication & Meetings";
    default_tile "sharepoint" "SharePoint" "https://example.com/sharepoint"
      "Files" "Documents & Intranet";
    default_tile "incident" "Incident Log" "https://example.com/incidents"
      "AlertTriangle" "Safeguarding & Reporting";
    default_tile "rota" "Staff Rota" "https://example.com/rota"
      "Calendar" "Schedules & Shifts";
    default_tile "policies" "Policies Folder" "https://example.com/policies"
      "ShieldCheck" "Procedures & Compliance";
    default_tile "ciw" "CIW / Regulations" "https://careinspectorate.wales"
      "BookOpen" "Reference Area" ].

(** ** The Supabase [tiles] table

    The table of the setup guide: [id TEXT PRIMARY KEY], the tile columns,
    [sort_order INTEGER] and [updated_at TIMESTAMPTZ DEFAULT NOW()] (read
    back through [new Date(...)], here as milliseconds since the epoch).
    [created_at] is never read and is left out. *)

Module Payload.
Record t : Type := {
  id : string;
  label : string;
  url : string;
  icon : string;
  image_url : option string;
  description : option string;
  sort_order : Z
}.
End Payload.

Module TileRow.
Record t : Type := {
  id : string;
  label : string;
  url : string;
  icon : string;
  image_url : option string;
  description : option string;
  sort_order : Z;
  updated_at : Z
}.

(** The row the table keeps for an inserted payload. *)
Definition stored (now : Z) (p : Payload.t) : t :=
  {| id := Payload.id p; label := Payload.label p; url := Payload.url p;
     icon := Payload.icon p; image_url := Payload.image_url p;
     description := Payload.description p;
     sort_order := Payload.sort_order p; updated_at := now |}.

(** [ORDER BY sort_order ASC] *)
Definition by_sort_order (r1 r2 : t) : Prop :=
  (sort_order r1 ≤ sort_order r2)%Z.

#[global] Instance by_sort_order_dec : RelDecision by_sort_order.
Proof. intros r1 r2. unfold by_sort_order. apply _. Defined.
End TileRow.

Module Supabase.

(** [.from('tiles').select('*').order('sort_order', { ascending: true })]
    on a table whose rows lie in any physical order. *)
Definition select_ordered (o : Js.Outcome) (table : list TileRow.t)
    : Js.Reply (list TileRow.t) :=
  Js.reply_of o (merge_sort TileRow.by_sort_order table).

(** [.from('tiles').delete().neq('id', v)]: the rows whose id is [v] stay. *)
Definition delete_neq_id (o : Js.Outcome) (v : string) (table : list TileRow.t)
    : list TileRow.t * Js.Reply unit :=
  match o with
  | Js.Succeeds =>
      (filter (λ r, TileRow.id r = v) table, Js.Resolved None None)
  | _ => (table, Js.reply_of o tt)
  end.

(** [.from('tiles').insert(rows)]: one statement, refused as a whole when it
    would break the primary key. *)
Definition insert (o : Js.Outcome) (now : Z) (rows : list Payload.t)
    (table : list TileRow.t) : list TileRow.t * Js.Reply unit :=
  match o with
  | Js.Succeeds =>
      let table' := table ++ (TileRow.stored now <$> rows) in
      if decide (NoDup (TileRow.id <$> table'))
      then (table', Js.Resolved None None)
      else (table,
            Js.Resolved None
              (Some "duplicate key value violates unique constraint tiles_pkey"))
  | _ => (table, Js.reply_of o tt)
  end.

End Supabase.

(** ** The sync controller ([App]) *)

Module App.

(** One field per [useState] hook of [App]. *)
Record State : Type := {
  tiles : list TileDefinition;
  lastUpdated : option string;
  searchQuery : string;
  isManaging : bool;
  isLoading : bool;
  isSaving : bool;
  error : option string
}.

(** The component state, the remote table and what was written to the
    console. *)
Record System : Type := {
  ui : State;
  table : list TileRow.t;
  console : list (string * string)
}.

Definition update_ui (f : State → State) : Eff System unit :=
  modify (λ w, {| ui := f (ui w); table := table w; console := console w |}).

Definition setTiles (v : list TileDefinition) : Eff System unit :=
  update_ui (λ s, {| tiles := v; lastUpdated := lastUpdated s;
                     searchQuery := searchQuery s; isManaging := isManaging s;
                     isLoading := isLoading s; isSaving := isSaving s;
                     error := error s |}).

Definition setLastUpdated (v : option string) : Eff System unit :=
  update_ui (λ s, {| tiles := tiles s; lastUpdated := v;
                     searchQuery := searchQuery s; isManaging := isManaging s;
                     isLoading := isLoading s; isSaving := isSaving s;
                     error := error s |}).

Definition setIsManaging (v : bool) : Eff System unit :=
  update_ui (λ s, {| tiles := tiles s; lastUpdated := lastUpdated s;
                     searchQuery := searchQuery s; isManaging := v;
                     isLoading := isLoading s; isSaving := isSaving s;
                     error := error s |}).

Definition setIsLoading (v : bool) : Eff System unit :=
  update_ui (λ s, {| tiles := tiles s; lastUpdated := lastUpdated s;
                     searchQuery := searchQuery s; isManaging := isManaging s;
                     isLoading := v; isSaving := isSaving s;
                     error := error s |}).

Definition setIsSaving (v : bool) : Eff System unit :=
  update_ui (λ s, {| tiles := tiles s; lastUpdated := lastUpdated s;
                     searchQuery := searchQuery s; isManaging := isManaging s;
                     isLoading := isLoading s; isSaving := v;
                     error := error s |}).

Definition setError (v : option string) : Eff System unit :=
  update_ui (λ s, {| tiles := tiles s; lastUpdated := lastUpdated s;
                     searchQuery := searchQuery s; isManaging := isManaging s;
                     isLoading := isLoading s; isSaving := isSaving s;
                     error := v |}).

(** [console.error(msg, err)] *)
Definition console_error (msg err : string) : Eff System unit :=
  modify (λ w, {| ui := ui w; table := table w;
                  console := console w ++ [(msg, err)] |}).

(** [if (error) throw error;] *)
Definition throw_if (error : option string) : Eff System unit :=
  match error with
  | Some e => throw e
  | None => ret tt
  end.

(** A call on the [tiles] table, as a promise to [await]. *)
Definition on_table {T : Type} (call : list TileRow.t → list TileRow.t * Js.Reply T)
    : System → System * Js.Reply T :=
  λ w, let '(table', reply) := call (table w) in
       ({| ui := ui w; table := table'; console := console w |}, reply).

(** The object literal of [tilesToInsert], in [seedDefaultTiles] and in
    [handleSave] alike. *)
Definition tileToInsert (index : nat) (tile : TileDefinition) : Payload.t :=
  {| Payload.id := id tile;
     Payload.label := label tile;
     Payload.url := url tile;
     Payload.icon := icon tile;
     Payload.image_url := Js.orNull (imageUrl tile);
     Payload.description := Js.orNull (description tile);
     Payload.sort_order := Z.of_nat index |}.

(** The row-to-tile mapping of [fetchTiles]. *)
Definition rowToTile (row : TileRow.t) : TileDefinition :=
  {| id := TileRow.id row;
     label := TileRow.label row;
     url := TileRow.url row;
     icon := TileRow.icon row;
     imageUrl := Js.orUndefined (TileRow.image_url row);
     description := Js.orUndefined (TileRow.description row) |}.

(** The [reduce] of [fetchTiles], from [new Date(0)]. *)
Definition latestUpdate (data : list TileRow.t) : Z :=
  foldl (λ latest row,
           let rowDate := TileRow.updated_at row in
           if (latest <? rowDate)%Z then rowDate else latest)
        0%Z data.

Local Open Scope eff_scope.

Definition seedDefaultTiles (oInsert : Js.Outcome) (now : Z)
    : Eff System unit :=
  try_catch
    (let tilesToInsert := imap tileToInsert DEFAULT_TILES in
     r <- await (on_table (Supabase.insert oInsert now tilesToInsert)) ;;
     throw_if r.2 ;;
     setTiles DEFAULT_TILES)
    (λ err,
       console_error "Error seeding defaults:" err ;;
       setTiles DEFAULT_TILES).

Definition fetchTiles (toLocaleString : Z → string)
    (oSelect oInsert : Js.Outcome) (now : Z) : Eff System unit :=
  setIsLoading true ;;
  setError None ;;
  try_finally
    (try_catch
       (r <- await (on_table (λ t, (t, Supabase.select_ordered oSelect t))) ;;
        throw_if r.2 ;;
        match r.1 with
        | Some ((_ :: _) as data) =>
            setTiles (rowToTile <$> data) ;;
            if (0 <? latestUpdate data)%Z
            then setLastUpdated (Some (toLocaleString (latestUpdate data)))
            else ret tt
        | _ => seedDefaultTiles oInsert now
        end)
       (λ err,
          console_error "Error fetching tiles:" err ;;
          setError (Some "Failed to load links. Please refresh the page.") ;;
          setTiles DEFAULT_TILES))
    (setIsLoading false).

Definition handleSave (oDelete oInsert : Js.Outcome) (now : Z)
    (timestamp : string) (newTiles : list TileDefinition) : Eff System unit :=
  setIsSaving true ;;
  setError None ;;
  try_finally
    (try_catch
       (r <- await (on_table (Supabase.delete_neq_id oDelete "")) ;;
        throw_if r.2 ;;
        let tilesToInsert := imap tileToInsert newTiles in
        r <- await (on_table (Supabase.insert oInsert now tilesToInsert)) ;;
        throw_if r.2 ;;
        setTiles newTiles ;;
        setLastUpdated (Some timestamp) ;;
        setIsManaging false)
       (λ err,
          console_error "Error saving tiles:" err ;;
          setError (Some "Failed to save changes. Please try again.")))
    (setIsSaving false).

Definition handleReset (oDelete oInsert : Js.Outcome) (now : Z)
    : Eff System unit :=
  setIsSaving true ;;
  setError None ;;
  try_finally
    (try_catch
       (r <- await (on_table (Supabase.delete_neq_id oDelete "")) ;;
        throw_if r.2 ;;
        seedDefaultTiles oInsert now ;;
        setLastUpdated None ;;
        setIsManaging false)
       (λ err,
          console_error "Error resetting:" err ;;
          setError (Some "Failed to reset. Please try again.")))
    (setIsSaving false).

(** The Dismiss button of the error banner. *)
Definition dismissError : Eff System unit := setError None.

(** The rows that [tilesToInsert] becomes in the table, inserted at [now]. *)
Definition rowsOf (now : Z) (tiles : list TileDefinition) : list TileRow.t :=
  TileRow.stored now <$> imap tileToInsert tiles.

(** A tile as it reads back after [tileToInsert] and [rowToTile]: an optional
    field that was the empty string comes back missing. *)
Definition readBack (tile : TileDefinition) : TileDefinition :=
  {| id := id tile; label := label tile; url := url tile; icon := icon tile;
     imageUrl := Js.orNull (imageUrl tile);
     description := Js.orNull (description tile) |}.

Local Close Scope eff_scope.

End App.

(** ** The edit session ([LinkManager]) *)

Module LinkManager.

(** The [File] picked in the file input. *)
Record File : Type := {
  name : string;
  size : Z
}.

(** One field per [useState] hook of [LinkManager]. *)
Record State : Type := {
  tiles : list TileDefinition;
  uploadingId : option string;
  draggedIndex : option nat;
  dragOverIndex : option nat
}.

(** The component state, the image bucket, the [alert] boxes shown and what
    was written to the console. *)
Record System : Type := {
  ui : State;
  bucket : list string;
  alerts : list string;
  console : list (string * string)
}.

Definition update_ui (f : State → State) : Eff System unit :=
  modify (λ w, {| ui := f (ui w); bucket := bucket w; alerts := alerts w;
                  console := console w |}).

(** [setTiles(prev => f(prev))] *)
Definition setTiles (f : list TileDefinition → list TileDefinition)
    : Eff System unit :=
  update_ui (λ s, {| tiles := f (tiles s); uploadingId := uploadingId s;
                     draggedIndex := draggedIndex s;
                     dragOverIndex := dragOverIndex s |}).

Definition setUploadingId (v : option string) : Eff System unit :=
  update_ui (λ s, {| tiles := tiles s; uploadingId := v;
                     draggedIndex := draggedIndex s;
                     dragOverIndex := dragOverIndex s |}).

Definition setDraggedIndex (v : option nat) : Eff System unit :=
  update_ui (λ s, {| tiles := tiles s; uploadingId := uploadingId s;
                     draggedIndex := v; dragOverIndex := dragOverIndex s |}).

Definition setDragOverIndex (v : option nat) : Eff System unit :=
  update_ui (λ s, {| tiles := tiles s; uploadingId := uploadingId s;
                     draggedIndex := draggedIndex s; dragOverIndex := v |}).

Definition alert (msg : string) : Eff System unit :=
  modify (λ w, {| ui := ui w; bucket := bucket w;
                  alerts := alerts w ++ [msg]; console := console w |}).

Definition console_error (msg err : string) : Eff System unit :=
  modify (λ w, {| ui := ui w; bucket := bucket w; alerts := alerts w;
                  console := console w ++ [(msg, err)] |}).

Definition throw_if (error : option string) : Eff System unit :=
  match error with
  | Some e => throw e
  | None => ret tt
  end.

(** [storage.from(IMAGES_BUCKET).upload(fileName, file, { upsert: true })] *)
Definition storage_upload (o : Js.Outcome) (fileName : string)
    : System → System * Js.Reply unit :=
  λ w, match o with
       | Js.Succeeds =>
           ({| ui := ui w;
               bucket := if decide (fileName ∈ bucket w) then bucket w
                         else bucket w ++ [fileName];
               alerts := alerts w; console := console w |},
            Js.Resolved (Some tt) None)
       | _ => (w, Js.reply_of o tt)
       end.

(** [storage.from(IMAGES_BUCKET).remove([fileName])] *)
Definition storage_remove (o : Js.Outcome) (fileName : string)
    : System → System * Js.Reply unit :=
  λ w, match o with
       | Js.Succeeds =>
           ({| ui := ui w;
               bucket := filter (λ f, f ≠ fileName) (bucket w);
               alerts := alerts w; console := console w |},
            Js.Resolved (Some tt) None)
       | _ => (w, Js.reply_of o tt)
       end.

Local Open Scope eff_scope.

(** The updater [prev => prev.map(t => t.id === id ? { ...t, [field]: value } : t)]
    of [handleUpdateTile]. *)
Definition updateTiles (id' : string) (field : Field) (value : string)
    (prev : list TileDefinition) : list TileDefinition :=
  (λ t, if decide (id t = id') then with_field t field value else t) <$> prev.

Definition handleUpdateTile (id' : string) (field : Field) (value : string)
    : Eff System unit :=
  setTiles (updateTiles id' field value).

(** [confirmed] is the answer to [window.confirm]. *)
Definition handleDeleteTile (confirmed : bool) (id' : string)
    : Eff System unit :=
  if confirmed then setTiles (λ prev, filter (λ t, id t ≠ id') prev)
  else ret tt.

(** The [newTile] literal of [handleAddTile]. *)
Definition newTile (newId : string) : TileDefinition :=
  {| id := newId; label := "New App"; url := ""; icon := "Globe";
     imageUrl := None; description := Some "Description here" |}.

(** [now] is the value of [Date.now()]. *)
Definition handleAddTile (now : Z) : Eff System unit :=
  let newId := "custom-" +:+ pretty now in
  setTiles (λ prev, prev ++ [newTile newId]).

Definition handleDragStart (index : nat) : Eff System unit :=
  setDraggedIndex (Some index).

Definition handleDragOver (index : nat) : Eff System unit :=
  st <- get ;;
  match draggedIndex (ui st) with
  | Some d => if decide (d ≠ index) then setDragOverIndex (Some index)
              else ret tt
  | None => ret tt
  end.

Definition handleDragLeave : Eff System unit := setDragOverIndex None.

Definition handleDragEnd : Eff System unit :=
  setDraggedIndex None ;;
  setDragOverIndex None.

(** The two [splice] calls of [handleDrop] on the copy [[...tiles]]; an array
    slot holds a value of [A], one of which is [undefined]. *)
Definition moveTile {A : Type} (undefined : A) (tiles : list A)
    (draggedIndex dropIndex : nat) : list A :=
  let newTiles := tiles in
  let '(removed, newTiles) :=
    Js.splice newTiles (Z.of_nat draggedIndex) 1 [] in
  let draggedTile := Js.first undefined removed in
  (Js.splice newTiles (Z.of_nat dropIndex) 0 [draggedTile]).2.

(** [handleDrop], with the render that its [setTiles] brings about.  The
    array is moved as an array of slots, [None] being [undefined].  The
    handler itself stores whatever the splices give; an [undefined] slot in
    [tiles] then makes the render throw (it reads [tile.icon] of every slot),
    and there is no error boundary: that outcome is the [throw] below, in
    place of a state whose tiles are not all tiles. *)
Definition handleDrop (dropIndex : nat) : Eff System unit :=
  st <- get ;;
  match draggedIndex (ui st) with
  | None =>
      setDraggedIndex None ;;
      setDragOverIndex None
  | Some dragged =>
      if decide (dragged = dropIndex) then
        setDraggedIndex None ;;
        setDragOverIndex None
      else
        let newTiles := moveTile None (Some <$> tiles (ui st)) dragged dropIndex in
        match mapM (λ slot, slot) newTiles with
        | Some newTiles =>
            setTiles (λ _, newTiles) ;;
            setDraggedIndex None ;;
            setDragOverIndex None
        | None =>
            throw "TypeError: Cannot read properties of undefined (reading 'icon')"
        end
  end.

(** [handleImageUpload] up to its [await]: the size guard, the uploading
    marker and the file name.  It returns the name under which the upload was
    started, if one was. *)
Definition handleImageUpload_start (id' : string) (file : File) (now : Z)
    : Eff System (option string) :=
  if (2 * 1024 * 1024 <? size file)%Z then
    alert "Image is too large. Please use an image smaller than 2MB." ;;
    ret None
  else
    setUploadingId (Some id') ;;
    let fileExt := Js.pop (Js.split "."%char (name file)) in
    let fileName := id' +:+ "-" +:+ pretty now +:+ "." +:+ fileExt in
    ret (Some fileName).

(** [handleImageUpload] from its [await] on, once the upload has ended as
    [oUpload] says. *)
Definition handleImageUpload_settle (getPublicUrl : string → string)
    (oUpload : Js.Outcome) (id' fileName : string) : Eff System unit :=
  try_finally
    (try_catch
       (r <- await (storage_upload oUpload fileName) ;;
        throw_if r.2 ;;
        let publicUrl := getPublicUrl fileName in
        handleUpdateTile id' FimageUrl publicUrl)
       (λ err,
          console_error "Error uploading image:" err ;;
          alert "Failed to upload image. Please try again."))
    (setUploadingId None).

(** [handleImageUpload] when nothing else happens while the upload is
    awaited. *)
Definition handleImageUpload (getPublicUrl : string → string)
    (oUpload : Js.Outcome) (now : Z) (id' : string) (file : File)
    : Eff System unit :=
  started <- handleImageUpload_start id' file now ;;
  match started with
  | Some fileName => handleImageUpload_settle getPublicUrl oUpload id' fileName
  | None => ret tt
  end.

Definition handleRemoveImage (oRemove : Js.Outcome) (id' : string)
    (imageUrl' : option string) : Eff System unit :=
  match Js.orUndefined imageUrl' with
  | None => ret tt
  | Some imageUrl' =>
      try_catch
        (let urlParts := Js.split "/"%char imageUrl' in
         (* urlParts[urlParts.length - 1]: the last part, as pop reads it *)
         let fileName := Js.pop urlParts in
         _ <- await (storage_remove oRemove fileName) ;;
         ret tt)
        (λ err, console_error "Error deleting image from storage:" err) ;;
      handleUpdateTile id' FimageUrl ""
  end.

(** [handleSave] hands the working copy to [onSave]. *)
Definition handleSave (st : State) : list TileDefinition := tiles st.

(** The [disabled] attribute of the Save button. *)
Definition saveDisabled (isSaving : bool) (st : State) : bool :=
  isSaving || bool_decide (uploadingId st ≠ None).

(** Whether the file input of tile [t] is rendered: not while [t] is the
    uploading tile, and not while it shows an image. *)
Definition fileInputShown (st : State) (t : TileDefinition) : bool :=
  bool_decide (uploadingId st ≠ Some (id t)) && Js.falsy (imageUrl t).

Local Close Scope eff_scope.

(** *** The session with its uploads in flight

    Between the two halves of [handleImageUpload] other events are handled.
    A session is the component together with the uploads that were started
    and have not ended, each with its tile id and file name. *)

Record Session : Type := {
  sys : System;
  inflight : list (string * string)
}.

Inductive Event : Type :=
| ChooseFile (id' : string) (file : File) (now : Z)
| UploadEnds (k : nat) (oUpload : Js.Outcome).

Definition step (getPublicUrl : string → string) (ev : Event) (s : Session)
    : Session :=
  match ev with
  | ChooseFile id' file now =>
      if existsb (λ t, bool_decide (id t = id') && fileInputShown (ui (sys s)) t)
                 (tiles (ui (sys s)))
      then
        match handleImageUpload_start id' file now (sys s) with
        | (w, inr (Some fileName)) =>
            {| sys := w; inflight := inflight s ++ [(id', fileName)] |}
        | (w, _) => {| sys := w; inflight := inflight s |}
        end
      else s
  | UploadEnds k oUpload =>
      match inflight s !! k with
      | Some (id', fileName) =>
          {| sys := exec (handleImageUpload_settle getPublicUrl oUpload
                            id' fileName) (sys s);
             inflight := delete k (inflight s) |}
      | None => s
      end
  end.

Definition run (getPublicUrl : string → string) (evs : list Event)
    (s : Session) : Session :=
  foldl (λ s ev, step getPublicUrl ev s) s evs.

(** The component as first rendered with [initialTiles]: the effect copies
    the tiles ([JSON.parse(JSON.stringify(...))] keeps every field that is
    set), nothing is uploading or dragged. *)
Definition mount (initialTiles : list TileDefinition) : System :=
  {| ui := {| tiles := initialTiles; uploadingId := None;
              draggedIndex := None; dragOverIndex := None |};
     bucket := []; alerts := []; console := [] |}.

(** [handleAddTile] called once for each clock value of [nows], in order. *)
Definition addTiles (nows : list Z) (w : System) : System :=
  foldl (λ w now, exec (handleAddTile now) w) w nows.

End LinkManager.

(** ** Sample data *)

Module Sample.

Definition mail : TileDefinition :=
  {| id := "a"; label := "Mail"; url := "https://outlook.office.com";
     icon := "Mail"; imageUrl := None; description := None |}.

Definition teams : TileDefinition :=
  {| id := "b"; label := "Teams"; url := "https://teams.microsoft.com";
     icon := "Users"; imageUrl := None; description := None |}.

(** A tile whose image was removed in the editor: [imageUrl] is [''] . *)
Definition mail_image_removed : TileDefinition :=
  with_field mail FimageUrl "".

(** An edit session on [mail; teams] in which the tile at [i] is dragged. *)
Definition dragging (i : nat) : LinkManager.System :=
  exec (LinkManager.handleDragStart i) (LinkManager.mount [mail; teams]).

Definition getPublicUrl (fileName : string) : string :=
  "https://project.supabase.co/storage/v1/object/public/tile-images/"
  +:+ fileName.

Definition logo_1MiB : LinkManager.File :=
  {| LinkManager.name := "logo.png"; LinkManager.size := 1 * 1024 * 1024 |}.

Definition logo_3MiB : LinkManager.File :=
  {| LinkManager.name := "logo.png"; LinkManager.size := 3 * 1024 * 1024 |}.

(** [mail] with an uploaded image. *)
Definition mail_with_image : TileDefinition :=
  with_field mail FimageUrl (getPublicUrl "a-1700000000000.png").

(** The dashboard with a saved list and the manager open, on a table that
    holds what was saved. *)
Definition dashboard : App.System :=
  {| App.ui := {| App.tiles := [mail; teams];
                  App.lastUpdated := Some "03/11/2026, 09:00:00";
                  App.searchQuery := ""; App.isManaging := true;
                  App.isLoading := false; App.isSaving := false;
                  App.error := None |};
     App.table := TileRow.stored 1700000000000
                    <$> imap App.tileToInsert [mail; teams];
     App.console := [] |}.

(** A stand-in for [Date.prototype.toLocaleString]: the milliseconds in
    decimal. *)
Definition toLocaleString (ms : Z) : string := pretty ms.

(** The dashboard before its first fetch, on an empty table. *)
Definition fresh : App.System :=
  {| App.ui := {| App.tiles := []; App.lastUpdated := None;
                  App.searchQuery := ""; App.isManaging := false;
                  App.isLoading := true; App.isSaving := false;
                  App.error := None |};
     App.table := []; App.console := [] |}.

End Sample.

(** ** Strings of the display layer

    A character of a [string] is read as a UTF-16 code unit below 256, for
    which the functions below are the ones of JavaScript. *)

Module JsText.

(** One code unit of [s.toLowerCase()]: A to Z, and the capital letters of
    Latin-1 (192 to 222, the multiplication sign 215 apart), move up by 32. *)
Definition toLowerCase_char (c : ascii) : ascii :=
  let n := nat_of_ascii c in
  if ((65 <=? n) && (n <=? 90))
     || ((192 <=? n) && (n <=? 222) && negb (n =? 215))
  then ascii_of_nat (n + 32)
  else c.

Fixpoint toLowerCase (s : string) : string :=
  match s with
  | EmptyString => EmptyString
  | String c s' => String (toLowerCase_char c) (toLowerCase s')
  end.

(** [s.includes(searchString)] *)
Fixpoint includes (s searchString : string) : bool :=
  String.prefix searchString s
  || match s with
     | EmptyString => false
     | String _ s' => includes s' searchString
     end.

(** White space and line terminators below 256: tab, line feed, vertical
    tab, form feed, carriage return, space and no-break space. *)
Definition isWhiteSpace (c : ascii) : bool :=
  let n := nat_of_ascii c in
  ((9 <=? n) && (n <=? 13)) || (n =? 32) || (n =? 160).

Fixpoint trimStart (s : string) : string :=
  match s with
  | EmptyString => EmptyString
  | String c s' => if isWhiteSpace c then trimStart s' else s
  end.

Fixpoint trimEnd (s : string) : string :=
  match s with
  | EmptyString => EmptyString
  | String c s' =>
      match trimEnd s' with
      | EmptyString => if isWhiteSpace c then EmptyString
                       else String c EmptyString
      | rest => String c rest
      end
  end.

(** [s.trim()] *)
Definition trim (s : string) : string := trimEnd (trimStart s).

(** Whether the character [c] occurs in [s]. *)
Fixpoint occurs (c : ascii) (s : string) : bool :=
  match s with
  | EmptyString => false
  | String c' s' => Ascii.eqb c' c || occurs c s'
  end.

End JsText.

(** ** What the page shows *)

Module View.

(** The callback of [tiles.filter] in [App]: the label matches, or there is
    a description (not missing, not empty) and it matches. *)
Definition matchesSearch (searchQuery : string) (tile : TileDefinition)
    : bool :=
  JsText.includes (JsText.toLowerCase (label tile))
                  (JsText.toLowerCase searchQuery)
  || match description tile with
     | Some d =>
         negb (String.eqb d "")
         && JsText.includes (JsText.toLowerCase d)
                            (JsText.toLowerCase searchQuery)
     | None => false
     end.

(** [filteredTiles] of [App]. *)
Definition filteredTiles (st : App.State) : list TileDefinition :=
  filter (λ tile, matchesSearch (App.searchQuery st) tile) (App.tiles st).

(** [isValidUrl] of [TileCard], as the conditions read it. *)
Definition isValidUrl (tile : TileDefinition) : bool :=
  negb (String.eqb (url tile) "")
  && negb (String.eqb (JsText.trim (url tile)) "").

(** [showImage] of [TileCard]; [imageError] is the state of that name. *)
Definition showImage (imageError : bool) (tile : TileDefinition) : bool :=
  match imageUrl tile with
  | Some u =>
      negb (String.eqb u "") && negb (String.eqb (JsText.trim u) "")
      && negb imageError
  | None => false
  end.

(** The paragraph of [tile.description && <p>...</p>], when there is one. *)
Definition descriptionShown (tile : TileDefinition) : option string :=
  match description tile with
  | Some d => if String.eqb d "" then None else Some d
  | None => None
  end.

End View.

(** ** The drag gesture as a sequence of events *)

Module Drag.

Inductive Event : Type :=
| DragStart (index : nat)
| DragOver (index : nat)
| DragLeave
| Drop (dropIndex : nat)
| DragEnd.

(** The handler that the tile card binds to each event. *)
Definition handler (ev : Event) : Eff LinkManager.System unit :=
  match ev with
  | DragStart index => LinkManager.handleDragStart index
  | DragOver index => LinkManager.handleDragOver index
  | DragLeave => LinkManager.handleDragLeave
  | Drop dropIndex => LinkManager.handleDrop dropIndex
  | DragEnd => LinkManager.handleDragEnd
  end.

(** Nothing is highlighted as drop target unless a tile is dragged, and the
    dragged tile is never the highlighted one. *)
Definition consistent (st : LinkManager.State) : Prop :=
  match LinkManager.draggedIndex st, LinkManager.dragOverIndex st with
  | _, None => True
  | None, Some _ => False
  | Some dragged, Some over => dragged ≠ over
  end.

End Drag.

(** ** More sample data *)

Module Scenario.

(** The edit session on [mail; teams]. *)
Definition session : LinkManager.System :=
  LinkManager.mount [Sample.mail; Sample.teams].

(** The same session while the image picked for [mail] is uploading. *)
Definition uploading : LinkManager.Session :=
  LinkManager.step Sample.getPublicUrl
    (LinkManager.ChooseFile "a" Sample.logo_1MiB 1700000000000)
    {| LinkManager.sys := session; LinkManager.inflight := [] |}.

(** A picked file whose name has no dot. *)
Definition logo_no_dot : LinkManager.File :=
  {| LinkManager.name := "logo"; LinkManager.size := 1024 |}.

(** [Sample.dashboard] as another client sees it, with the rows of the table
    in the opposite physical order. *)
Definition other_client : App.System :=
  {| App.ui := App.ui Sample.fresh;
     App.table := reverse (App.table Sample.dashboard);
     App.console := [] |}.

(** The page of [Sample.dashboard] with a search typed in. *)
Definition searching (searchQuery : string) : App.State :=
  {| App.tiles := [Sample.mail; Sample.teams];
     App.lastUpdated := None; App.searchQuery := searchQuery;
     App.isManaging := false; App.isLoading := false;
     App.isSaving := false; App.error := None |}.

(** A working copy in which one id occurs twice. *)
Definition twice : list TileDefinition :=
  [LinkManager.newTile "custom-1700000000000";
   LinkManager.newTile "custom-1700000000000"].

End Scenario.

(** * Properties *)

(** ** Reordering by drag and drop *)

Section MoveTile.
Context {A : Type}.
Implicit Types (arr : list A) (x undefined : A) (i j : nat).

Lemma splice_remove_one arr i x :
  arr !! i = Some x →
  Js.splice arr (Z.of_nat i) 1 [] = ([x], delete i arr).
Proof.
  intros Hx. pose proof (lookup_lt_Some _ _ _ Hx) as Hlt.
  unfold Js.splice.
  destruct (Z.ltb_spec (Z.of_nat i) 0) as [|_]; [lia|].
  replace (Z.to_nat (Z.of_nat i `min` Z.of_nat (length arr))) with i by lia.
  replace (Z.to_nat ((1 `max` 0) `min` (Z.of_nat (length arr) - Z.of_nat i)))
    with 1 by lia.
  f_equal.
  - by rewrite (drop_S _ _ _ Hx).
  - rewrite delete_take_drop. simpl. by rewrite Nat.add_1_r.
Qed.

Lemma splice_remove_beyond arr i :
  length arr ≤ i → Js.splice arr (Z.of_nat i) 1 [] = ([], arr).
Proof.
  intros Hge. unfold Js.splice.
  destruct (Z.ltb_spec (Z.of_nat i) 0) as [|_]; [lia|].
  replace (Z.to_nat (Z.of_nat i `min` Z.of_nat (length arr)))
    with (length arr) by lia.
  replace (Z.to_nat ((1 `max` 0) `min`
             (Z.of_nat (length arr) - Z.of_nat (length arr)))) with 0 by lia.
  rewrite Nat.add_0_r, firstn_all, drop_all. simpl. by rewrite app_nil_r.
Qed.

Lemma splice_insert_one arr j x :
  Js.splice arr (Z.of_nat j) 0 [x] = ([], take j arr ++ x :: drop j arr).
Proof.
  unfold Js.splice.
  destruct (Z.ltb_spec (Z.of_nat j) 0) as [|_]; [lia|].
  set (k := Z.to_nat (Z.of_nat j `min` Z.of_nat (length arr))).
  replace (Z.to_nat ((0 `max` 0) `min` (Z.of_nat (length arr) - Z.of_nat k)))
    with 0 by lia.
  rewrite Nat.add_0_r. simpl. f_equal.
  destruct (decide (j ≤ length arr)) as [Hle|Hgt].
  - by replace k with j by lia.
  - replace k with (length arr) by lia.
    by rewrite !take_ge, !drop_ge by lia.
Qed.

(** Within bounds the dragged element is taken out and put back at the drop
    index of what is left. *)
Lemma moveTile_within undefined arr i j x :
  arr !! i = Some x →
  LinkManager.moveTile undefined arr i j
  = take j (delete i arr) ++ x :: drop j (delete i arr).
Proof.
  intros Hx. unfold LinkManager.moveTile.
  rewrite (splice_remove_one _ _ _ Hx). cbv beta iota zeta.
  by rewrite splice_insert_one.
Qed.

(** A dragged index beyond the array takes nothing out and puts [undefined]
    in. *)
Lemma moveTile_stale undefined arr i j :
  length arr ≤ i →
  LinkManager.moveTile undefined arr i j
  = take j arr ++ undefined :: drop j arr.
Proof.
  intros Hge. unfold LinkManager.moveTile.
  rewrite (splice_remove_beyond _ _ Hge). cbv beta iota zeta.
  by rewrite splice_insert_one.
Qed.

Lemma moveTile_Permutation undefined arr i j x :
  arr !! i = Some x → LinkManager.moveTile undefined arr i j ≡ₚ arr.
Proof.
  intros Hx. rewrite (moveTile_within _ _ _ _ _ Hx).
  rewrite <-Permutation_middle, take_drop.
  symmetry. by apply delete_Permutation.
Qed.

Lemma moveTile_lookup undefined arr i j x :
  arr !! i = Some x → j < length arr →
  LinkManager.moveTile undefined arr i j !! j = Some x.
Proof.
  intros Hx Hj. pose proof (lookup_lt_Some _ _ _ Hx) as Hi.
  rewrite (moveTile_within _ _ _ _ _ Hx).
  assert (length (take j (delete i arr)) = j) as Hlen.
  { rewrite length_take, length_delete by eauto. lia. }
  rewrite lookup_app_r by lia. by rewrite Hlen, Nat.sub_diag.
Qed.

Lemma moveTile_others undefined arr i j x :
  arr !! i = Some x → j < length arr →
  delete j (LinkManager.moveTile undefined arr i j) = delete i arr.
Proof.
  intros Hx Hj. pose proof (lookup_lt_Some _ _ _ Hx) as Hi.
  rewrite (moveTile_within _ _ _ _ _ Hx).
  assert (length (take j (delete i arr)) = j) as Hlen.
  { rewrite length_take, length_delete by eauto. lia. }
  rewrite delete_take_drop, (take_app_length' _ _ j) by done.
  rewrite cons_middle, app_assoc.
  rewrite (drop_app_length' _ _ (S j)) by (rewrite length_app; simpl; lia).
  by rewrite take_drop.
Qed.

End MoveTile.

Section HandleDrop.
Import LinkManager.
Implicit Types (w : System) (i j : nat).

(** What [handleDrop] does when a different, existing tile is dragged. *)
Lemma handleDrop_within w i j x :
  draggedIndex (ui w) = Some i → tiles (ui w) !! i = Some x → i ≠ j →
  handleDrop j w =
  ({| ui := {| tiles := moveTile x (tiles (ui w)) i j;
               uploadingId := uploadingId (ui w);
               draggedIndex := None; dragOverIndex := None |};
      bucket := bucket w; alerts := alerts w; console := console w |},
   inr tt).
Proof.
  intros Hd Hx Hne. unfold handleDrop, bind, get. simpl. rewrite Hd.
  destruct (decide (i = j)) as [|_]; [done|].
  assert (moveTile None (Some <$> tiles (ui w)) i j
          = Some <$> moveTile x (tiles (ui w)) i j) as ->.
  { rewrite (moveTile_within None _ _ _ (Some x))
      by (by rewrite list_lookup_fmap, Hx).
    rewrite (moveTile_within x _ _ _ x Hx).
    by rewrite fmap_app, fmap_cons, fmap_take, fmap_drop, list_fmap_delete. }
  by rewrite mapM_fmap_Some.
Qed.

Lemma handleDrop_same w i :
  draggedIndex (ui w) = Some i →
  handleDrop i w =
  ({| ui := {| tiles := tiles (ui w); uploadingId := uploadingId (ui w);
               draggedIndex := None; dragOverIndex := None |};
      bucket := bucket w; alerts := alerts w; console := console w |},
   inr tt).
Proof.
  intros Hd. unfold handleDrop, bind, get. simpl. rewrite Hd.
  by destruct (decide (i = i)).
Qed.

(** C1: for valid, distinct indices [i] and [j], dropping the tile dragged
    from [i] onto [j] succeeds and leaves a sequence with exactly the same
    elements, in which the tile that was at [i] is at [j] and the other tiles
    keep their relative order (taking the moved tile out of the new and of
    the old sequence leaves the same sequence). *)
Theorem handleDrop_reorders w i j :
  draggedIndex (ui w) = Some i →
  i < length (tiles (ui w)) → j < length (tiles (ui w)) → i ≠ j →
  ∃ w', handleDrop j w = (w', inr tt)
        ∧ tiles (ui w') ≡ₚ tiles (ui w)
        ∧ tiles (ui w') !! j = tiles (ui w) !! i
        ∧ delete j (tiles (ui w')) = delete i (tiles (ui w)).
Proof.
  intros Hd Hi Hj Hne.
  destruct (lookup_lt_is_Some_2 _ _ Hi) as [x Hx].
  rewrite (handleDrop_within w i j x Hd Hx Hne).
  eexists. split; [reflexivity|]. simpl.
  split; [by eapply moveTile_Permutation|].
  split; [rewrite Hx; by apply moveTile_lookup|].
  by eapply moveTile_others.
Qed.

(** C8, as the code has it: dropping a tile on its own index leaves the
    working copy as it is, whether or not that index is within bounds; there
    is no bounds guard, and a drop index beyond the end moves the dragged
    tile to the end. *)
Theorem handleDrop_same_index_noop w i j :
  draggedIndex (ui w) = Some i →
  (i = j → tiles (ui (exec (handleDrop j) w)) = tiles (ui w))
  ∧ (∀ x, tiles (ui w) !! i = Some x → length (tiles (ui w)) ≤ j →
          tiles (ui (exec (handleDrop j) w)) = delete i (tiles (ui w)) ++ [x]).
Proof.
  intros Hd. split.
  - intros <-. unfold exec. by rewrite handleDrop_same.
  - intros x Hx Hj. pose proof (lookup_lt_Some _ _ _ Hx) as Hi.
    unfold exec. rewrite (handleDrop_within _ _ _ x) by (done || lia). simpl.
    rewrite (moveTile_within _ _ _ _ _ Hx).
    by rewrite take_ge, drop_ge by (rewrite length_delete by eauto; lia).
Qed.

End HandleDrop.

Lemma handleDrop_reorders_witness :
  ∃ w', LinkManager.handleDrop 1 (Sample.dragging 0) = (w', inr tt)
        ∧ LinkManager.tiles (LinkManager.ui w') ≡ₚ [Sample.mail; Sample.teams]
        ∧ LinkManager.tiles (LinkManager.ui w') !! 1 = Some Sample.mail
        ∧ delete 1 (LinkManager.tiles (LinkManager.ui w')) = [Sample.teams].
Proof.
  apply (handleDrop_reorders (Sample.dragging 0) 0 1);
    [reflexivity | simpl; lia | simpl; lia | lia].
Defined.

Lemma handleDrop_same_index_noop_witness :
  LinkManager.tiles (LinkManager.ui
    (exec (LinkManager.handleDrop 1) (Sample.dragging 1)))
  = [Sample.mail; Sample.teams]
  ∧ LinkManager.tiles (LinkManager.ui
      (exec (LinkManager.handleDrop 5) (Sample.dragging 0)))
    = [Sample.teams; Sample.mail].
Proof.
  split.
  - apply (proj1 (handleDrop_same_index_noop (Sample.dragging 1) 1 1 eq_refl)).
    reflexivity.
  - apply (proj2 (handleDrop_same_index_noop (Sample.dragging 0) 0 5 eq_refl)
             Sample.mail); [reflexivity | simpl; lia].
Defined.

(** C8 as stated fails: with the drop index out of bounds the working copy
    changes, the dragged tile goes to the end. *)
Lemma handleDrop_out_of_bounds_moves :
  LinkManager.tiles (LinkManager.ui
    (exec (LinkManager.handleDrop 5) (Sample.dragging 0)))
  = [Sample.teams; Sample.mail]
  ∧ LinkManager.tiles (LinkManager.ui
      (exec (LinkManager.handleDrop 5) (Sample.dragging 0)))
    ≠ LinkManager.tiles (LinkManager.ui (Sample.dragging 0)).
Proof. split; [reflexivity | discriminate]. Qed.

(** A stale dragged index puts [undefined] among the tiles, and the handler
    ends in the render's TypeError. *)
Lemma handleDrop_stale_index_throws :
  (LinkManager.handleDrop 0 (Sample.dragging 5)).2
  = inl "TypeError: Cannot read properties of undefined (reading 'icon')".
Proof. reflexivity. Qed.

(** ** Adding tiles *)

Section AddTile.
Import LinkManager.

Lemma tiles_addTiles nows w :
  tiles (ui (addTiles nows w))
  = tiles (ui w) ++ ((λ now, newTile ("custom-" +:+ pretty now)) <$> nows).
Proof.
  revert w. induction nows as [|now nows IH]; intros w.
  - simpl. by rewrite app_nil_r.
  - unfold addTiles in *. simpl. rewrite IH. simpl.
    by rewrite <-app_assoc.
Qed.

Lemma custom_id_inj : Inj (=) (=) (λ now : Z, "custom-" +:+ pretty now).
Proof.
  intros n1 n2 Heq. apply (inj _) in Heq. by apply (inj pretty).
Qed.

(** C3, as the code has it: from a working copy with distinct ids, any
    sequence of [addTile] calls that read pairwise different clock values,
    none of which gives an id already in the working copy, leaves all ids
    pairwise distinct. *)
Theorem addTiles_ids_distinct w nows :
  NoDup (id <$> tiles (ui w)) →
  NoDup nows →
  (∀ now, now ∈ nows → "custom-" +:+ pretty now ∉ id <$> tiles (ui w)) →
  NoDup (id <$> tiles (ui (addTiles nows w))).
Proof.
  intros Hw Hnows Hfresh. rewrite tiles_addTiles, fmap_app.
  apply NoDup_app. split; [done|]. split.
  - intros i Hi Hin. rewrite <-list_fmap_compose in Hin.
    apply list_elem_of_fmap in Hin as (now & -> & Hnow).
    by apply (Hfresh now).
  - rewrite <-list_fmap_compose.
    pose proof custom_id_inj as Hinj.
    by apply (NoDup_fmap_2 (λ now : Z, "custom-" +:+ pretty now)).
Qed.

End AddTile.

Lemma addTiles_ids_distinct_witness :
  NoDup (id <$> LinkManager.tiles (LinkManager.ui
    (LinkManager.addTiles [1700000000000; 1700000000001]%Z
       (LinkManager.mount DEFAULT_TILES)))).
Proof.
  apply addTiles_ids_distinct.
  - apply (bool_decide_unpack _). vm_compute. exact I.
  - apply (bool_decide_unpack _). vm_compute. exact I.
  - intros now Hnow. apply (bool_decide_unpack _).
    apply list_elem_of_In in Hnow.
    destruct Hnow as [<-|[<-|[]]]; vm_compute; exact I.
Defined.

(** C3 as stated fails: two [addTile] calls within one millisecond give the
    same id. *)
Lemma addTile_same_millisecond_same_id :
  NoDup (id <$> LinkManager.tiles (LinkManager.ui
                  (LinkManager.mount DEFAULT_TILES)))
  ∧ ¬ NoDup (id <$> LinkManager.tiles (LinkManager.ui
        (LinkManager.addTiles [1700000000000; 1700000000000]%Z
           (LinkManager.mount DEFAULT_TILES)))).
Proof.
  split.
  - apply (bool_decide_unpack _). vm_compute. exact I.
  - apply (bool_decide_unpack _). vm_compute. exact I.
Qed.

(** ** Images *)

Section Images.
Import LinkManager.
Implicit Types (w : System) (t : TileDefinition).

Lemma updateTiles_imageUrl id' value prev t :
  t ∈ updateTiles id' FimageUrl value prev → id t = id' →
  imageUrl t = Some value.
Proof.
  unfold updateTiles. intros Ht Hid.
  apply list_elem_of_fmap in Ht as (t0 & -> & _).
  destruct (decide (id t0 = id')) as [|Hne]; [done|].
  by destruct Hne.
Qed.

Lemma updateTiles_other id' field value prev t :
  t ∈ prev → id t ≠ id' → t ∈ updateTiles id' field value prev.
Proof.
  unfold updateTiles. intros Ht Hid.
  apply list_elem_of_fmap. exists t. split; [|done].
  by destruct (decide (id t = id')).
Qed.

(** C5: an image of more than 2 MiB is refused with an alert and the session
    state stays as it was, tiles and uploading marker included; an image of
    at most 2 MiB (1 MiB, say) is taken: the upload starts under the
    generated file name with the tile marked as uploading, and when it
    succeeds the tiles with that id get the public URL of that file as
    [imageUrl] and the marker is cleared. *)
Theorem handleImageUpload_size_guard
    (getPublicUrl : string → string) oUpload now id' file w :
  ((2 * 1024 * 1024 < size file)%Z →
     handleImageUpload getPublicUrl oUpload now id' file w
     = ({| ui := ui w; bucket := bucket w;
           alerts := alerts w ++
             ["Image is too large. Please use an image smaller than 2MB."];
           console := console w |}, inr tt))
  ∧ ((size file ≤ 2 * 1024 * 1024)%Z → oUpload = Js.Succeeds →
     let fileName :=
       id' +:+ "-" +:+ pretty now +:+ "." +:+
       Js.pop (Js.split "." (name file)) in
     let started := handleImageUpload_start id' file now w in
     let w' := exec (handleImageUpload getPublicUrl oUpload now id' file) w in
     started.2 = inr (Some fileName)
     ∧ uploadingId (ui started.1) = Some id'
     ∧ tiles (ui w')
       = updateTiles id' FimageUrl (getPublicUrl fileName) (tiles (ui w))
     ∧ (∀ t, t ∈ tiles (ui w') → id t = id' →
             imageUrl t = Some (getPublicUrl fileName))
     ∧ uploadingId (ui w') = None
     ∧ alerts w' = alerts w).
Proof.
  split.
  - intros Hbig. unfold handleImageUpload, handleImageUpload_start, bind.
    destruct (Z.ltb_spec (2 * 1024 * 1024) (size file)) as [_|]; [|lia].
    reflexivity.
  - intros Hsmall -> fileName started w'.
    assert (started = (exec (setUploadingId (Some id')) w, inr (Some fileName)))
      as Hstarted.
    { unfold started, handleImageUpload_start.
      by destruct (Z.ltb_spec (2 * 1024 * 1024) (size file)) as [|_]; [lia|]. }
    assert (handleImageUpload getPublicUrl Js.Succeeds now id' file w
            = handleImageUpload_settle getPublicUrl Js.Succeeds id' fileName
                (exec (setUploadingId (Some id')) w)) as Hrun.
    { unfold handleImageUpload, bind.
      change (handleImageUpload_start id' file now w) with started.
      by rewrite Hstarted. }
    assert (tiles (ui w')
            = updateTiles id' FimageUrl (getPublicUrl fileName) (tiles (ui w)))
      as Htiles.
    { unfold w', exec. by rewrite Hrun. }
    rewrite Hstarted. unfold w', exec. rewrite Hrun.
    repeat split; try done.
    intros t Ht. apply (updateTiles_imageUrl id' _ (tiles (ui w))).
    by rewrite <-Htiles; unfold w', exec; rewrite Hrun.
Qed.

(** C9, as the code has it: for a tile with a non-empty [imageUrl],
    [handleRemoveImage] never throws, shows no alert and sets the
    [imageUrl] of the tiles with that id to the empty string whatever the
    delete in the asset store does; a delete that throws is logged and
    swallowed, a delete that resolves with an error is dropped without a
    log entry. *)
Theorem handleRemoveImage_clears oRemove id' imageUrl' w :
  imageUrl' ≠ "" →
  let w' := exec (handleRemoveImage oRemove id' (Some imageUrl')) w in
  (handleRemoveImage oRemove id' (Some imageUrl') w).2 = inr tt
  ∧ tiles (ui w') = updateTiles id' FimageUrl "" (tiles (ui w))
  ∧ (∀ t, t ∈ tiles (ui w') → id t = id' → imageUrl t = Some "")
  ∧ alerts w' = alerts w
  ∧ console w'
    = console w ++
      match oRemove with
      | Js.Throws e => [("Error deleting image from storage:", e)]
      | _ => []
      end.
Proof.
  intros Hne w'.
  assert (Js.orUndefined (Some imageUrl') = Some imageUrl') as Htruthy.
  { unfold Js.orUndefined, Js.orNull.
    by destruct (String.eqb_spec imageUrl' ""). }
  assert (tiles (ui w') = updateTiles id' FimageUrl "" (tiles (ui w)))
    as Htiles.
  { unfold w', handleRemoveImage. rewrite Htruthy. by destruct oRemove. }
  repeat split.
  - unfold handleRemoveImage. rewrite Htruthy. by destruct oRemove.
  - exact Htiles.
  - intros t Ht. rewrite Htiles in Ht. by eapply updateTiles_imageUrl.
  - unfold w', handleRemoveImage. rewrite Htruthy. by destruct oRemove.
  - unfold w', handleRemoveImage. rewrite Htruthy.
    destruct oRemove; simpl; by rewrite ?app_nil_r.
Qed.

(** An upload that has started disables the Save button. *)
Lemma upload_start_disables_save id' file now isSaving w :
  (size file ≤ 2 * 1024 * 1024)%Z →
  saveDisabled isSaving (ui (exec (handleImageUpload_start id' file now) w))
  = true.
Proof.
  intros Hsmall. unfold handleImageUpload_start, saveDisabled.
  destruct (Z.ltb_spec (2 * 1024 * 1024) (size file)) as [|_]; [lia|].
  simpl. by rewrite orb_true_r.
Qed.

(** While uploads do not overlap the gate holds: if a file is only chosen
    when no upload is in flight, then in every state with an upload in flight
    a tile is marked as uploading, and the Save button is disabled. *)
Lemma gate_holds_without_overlap (getPublicUrl : string → string) ev s :
  length (inflight s) ≤ 1 →
  (inflight s ≠ [] → uploadingId (ui (sys s)) ≠ None) →
  (∀ id' file now, ev = ChooseFile id' file now → inflight s = []) →
  let s' := step getPublicUrl ev s in
  length (inflight s') ≤ 1
  ∧ (inflight s' ≠ [] → uploadingId (ui (sys s')) ≠ None)
  ∧ (inflight s' ≠ [] → saveDisabled false (ui (sys s')) = true).
Proof.
  intros Hlen Hinv Hseq s'.
  assert (length (inflight s') ≤ 1
          ∧ (inflight s' ≠ [] → uploadingId (ui (sys s')) ≠ None))
    as [Hlen' Hinv'].
  { unfold s'. destruct ev as [id' file now|k oUpload]; simpl.
    - pose proof (Hseq id' file now eq_refl) as Hnil. rewrite Hnil.
      destruct (existsb _ _); [|rewrite Hnil; split; [simpl; lia|done]].
      unfold handleImageUpload_start.
      destruct (2 * 1024 * 1024 <? size file)%Z; simpl;
        (split; [lia|done]).
    - destruct (inflight s !! k) as [[id' fileName]|] eqn:Hk; [|by split].
      simpl. pose proof (lookup_lt_Some _ _ _ Hk) as Hlt.
      assert (delete k (inflight s) = []) as ->.
      { apply nil_length_inv. rewrite length_delete by eauto. lia. }
      split; [simpl; lia|done]. }
  repeat split; [done..|].
  intros Hne. unfold saveDisabled. simpl.
  apply bool_decide_eq_true. by apply Hinv'.
Qed.

End Images.

Lemma handleImageUpload_size_guard_witness :
  let w := LinkManager.mount [Sample.mail; Sample.teams] in
  LinkManager.ui (exec (LinkManager.handleImageUpload Sample.getPublicUrl
                          Js.Succeeds 1700000000000 "a" Sample.logo_3MiB) w)
  = LinkManager.ui w
  ∧ LinkManager.tiles (LinkManager.ui
      (exec (LinkManager.handleImageUpload Sample.getPublicUrl
               Js.Succeeds 1700000000000 "a" Sample.logo_1MiB) w))
    = [Sample.mail_with_image; Sample.teams].
Proof.
  intros w. split.
  - unfold exec.
    rewrite (proj1 (handleImageUpload_size_guard Sample.getPublicUrl
                      Js.Succeeds 1700000000000 "a" Sample.logo_3MiB w));
      [reflexivity | vm_compute; reflexivity].
  - destruct (proj2 (handleImageUpload_size_guard Sample.getPublicUrl
                       Js.Succeeds 1700000000000 "a" Sample.logo_1MiB w))
      as (_ & _ & Htiles & _); [vm_compute; discriminate | reflexivity |].
    rewrite Htiles. vm_compute. reflexivity.
Defined.

Lemma handleRemoveImage_clears_witness :
  LinkManager.tiles (LinkManager.ui
    (exec (LinkManager.handleRemoveImage (Js.Throws "Failed to fetch") "a"
             (imageUrl Sample.mail_with_image))
          (LinkManager.mount [Sample.mail_with_image; Sample.teams])))
  = [Sample.mail_image_removed; Sample.teams].
Proof.
  destruct (handleRemoveImage_clears (Js.Throws "Failed to fetch") "a"
              (Sample.getPublicUrl "a-1700000000000.png")
              (LinkManager.mount [Sample.mail_with_image; Sample.teams]))
    as (_ & Htiles & _); [vm_compute; discriminate|].
  etransitivity; [exact Htiles|]. vm_compute. reflexivity.
Defined.

(** C9 as stated fails: a delete that resolves with an error clears the
    image reference and writes nothing to the console. *)
Lemma handleRemoveImage_error_not_logged :
  let w := LinkManager.mount [Sample.mail_with_image; Sample.teams] in
  let w' := exec (LinkManager.handleRemoveImage
                    (Js.ReturnsError "Object not found") "a"
                    (imageUrl Sample.mail_with_image)) w in
  LinkManager.tiles (LinkManager.ui w')
  = [Sample.mail_image_removed; Sample.teams]
  ∧ LinkManager.console w' = [].
Proof. split; reflexivity. Qed.

(** ** Uploads in flight and the Save button *)

(** C4 fails on the code: [uploadingId] holds one tile id, and the upload
    that ends first clears it.  With two uploads started (tiles a and b) and
    the first one ended, the upload for b is still in flight, nothing is
    marked as uploading and the Save button is enabled. *)
Theorem save_enabled_with_upload_in_flight :
  let s := LinkManager.run Sample.getPublicUrl
             [ LinkManager.ChooseFile "a" Sample.logo_1MiB 1700000000000;
               LinkManager.ChooseFile "b" Sample.logo_1MiB 1700000000500;
               LinkManager.UploadEnds 0 Js.Succeeds ]
             {| LinkManager.sys := LinkManager.mount [Sample.mail; Sample.teams];
                LinkManager.inflight := [] |} in
  LinkManager.inflight s = [("b", "b-1700000000500.png")]
  ∧ LinkManager.uploadingId (LinkManager.ui (LinkManager.sys s)) = None
  ∧ LinkManager.saveDisabled false (LinkManager.ui (LinkManager.sys s)) = false.
Proof. vm_compute. repeat split. Qed.

(** ** The sync controller *)

Section Controller.
Import App.
Implicit Types (w : System) (table : list TileRow.t) (W : list TileDefinition).

#[local] Instance by_sort_order_trans : Transitive TileRow.by_sort_order.
Proof. unfold TileRow.by_sort_order. intros r1 r2 r3. lia. Qed.

#[local] Instance by_sort_order_total : Total TileRow.by_sort_order.
Proof. unfold TileRow.by_sort_order. intros r1 r2. lia. Qed.

Lemma orNull_idemp x : Js.orNull (Js.orNull x) = Js.orNull x.
Proof.
  unfold Js.orNull. destruct x as [s|]; [|done].
  by destruct (String.eqb s "") eqn:Hs; [|rewrite Hs].
Qed.

Lemma orNull_id x : x ≠ Some "" → Js.orNull x = x.
Proof.
  unfold Js.orNull. destruct x as [s|]; [|done]. intros Hne.
  destruct (String.eqb_spec s ""); [by subst|done].
Qed.

Lemma readBack_id tile :
  imageUrl tile ≠ Some "" → description tile ≠ Some "" → readBack tile = tile.
Proof.
  intros Hi Hd. unfold readBack. rewrite !orNull_id by done. by destruct tile.
Qed.

Lemma readBack_all_id W :
  Forall (λ t, imageUrl t ≠ Some "" ∧ description t ≠ Some "") W →
  readBack <$> W = W.
Proof.
  induction 1 as [|t W [Hi Hd] _ IH]; [done|].
  by rewrite fmap_cons, IH, readBack_id.
Qed.

Lemma rowToTile_stored now k tile :
  rowToTile (TileRow.stored now (tileToInsert k tile)) = readBack tile.
Proof.
  unfold rowToTile, readBack, Js.orUndefined. simpl.
  by rewrite !orNull_idemp.
Qed.

Lemma rowsOf_lookup now W k r :
  rowsOf now W !! k = Some r →
  ∃ tile, W !! k = Some tile ∧ r = TileRow.stored now (tileToInsert k tile).
Proof.
  unfold rowsOf. rewrite list_lookup_fmap, list_lookup_imap.
  destruct (W !! k) as [tile|]; [|done]. simpl. intros [= <-]. eauto.
Qed.

(** Each row carries the index of its tile as sort position. *)
Lemma rowsOf_sort_order now W k r :
  rowsOf now W !! k = Some r → TileRow.sort_order r = Z.of_nat k.
Proof. intros Hr. by apply rowsOf_lookup in Hr as (tile & _ & ->). Qed.

Lemma rowsOf_ids now W : TileRow.id <$> rowsOf now W = id <$> W.
Proof.
  unfold rowsOf. rewrite <-list_fmap_compose, fmap_imap.
  rewrite (imap_ext _ (λ _, id)) by done. apply imap_const.
Qed.

Lemma rowToTile_rowsOf now W : rowToTile <$> rowsOf now W = readBack <$> W.
Proof.
  unfold rowsOf. rewrite <-list_fmap_compose, fmap_imap.
  rewrite (imap_ext _ (λ _, readBack)); [apply imap_const|].
  intros k tile _. apply rowToTile_stored.
Qed.

Lemma rowsOf_sorted_from now W k :
  Sorted TileRow.by_sort_order
    (TileRow.stored now <$> imap (λ i, tileToInsert (k + i)) W).
Proof.
  revert k. induction W as [|tile W IH]; intros k; [constructor|].
  rewrite imap_cons, fmap_cons.
  rewrite (imap_ext _ (λ i, tileToInsert (S k + i)))
    by (intros; simpl; f_equal; lia).
  constructor; [apply IH|].
  destruct W as [|tile' W]; constructor.
  unfold TileRow.by_sort_order. simpl. lia.
Qed.

Lemma rowsOf_sorted now W : Sorted TileRow.by_sort_order (rowsOf now W).
Proof. apply (rowsOf_sorted_from now W 0). Qed.

(** Ordering by [sort_order] brings the rows back in the order of the tiles,
    in whatever order the table keeps them. *)
Lemma merge_sort_rowsOf now W table :
  table ≡ₚ rowsOf now W →
  merge_sort TileRow.by_sort_order table = rowsOf now W.
Proof.
  intros Hperm.
  apply (Sorted_unique_strong TileRow.by_sort_order).
  - intros r1 r2 Hr1 Hr2 H12 H21.
    rewrite merge_sort_Permutation, Hperm in Hr1.
    apply list_elem_of_lookup in Hr1 as [k1 Hk1].
    apply list_elem_of_lookup in Hr2 as [k2 Hk2].
    pose proof (rowsOf_sort_order _ _ _ _ Hk1) as Ho1.
    pose proof (rowsOf_sort_order _ _ _ _ Hk2) as Ho2.
    unfold TileRow.by_sort_order in *.
    assert (k1 = k2) as -> by lia. congruence.
  - apply Sorted_merge_sort, _.
  - apply rowsOf_sorted.
  - by rewrite merge_sort_Permutation.
Qed.

(** A fetch that finds rows shows them, mapped to tiles, in the order of
    [sort_order]; it does not touch the table. *)
Lemma fetchTiles_rows toLocaleString oInsert now w :
  table w ≠ [] →
  let w' := exec (fetchTiles toLocaleString Js.Succeeds oInsert now) w in
  tiles (ui w') = rowToTile <$> merge_sort TileRow.by_sort_order (table w)
  ∧ table w' = table w
  ∧ error (ui w') = None
  ∧ isLoading (ui w') = false.
Proof.
  intros Hne.
  unfold fetchTiles, exec, bind, try_finally, try_catch, await, on_table.
  simpl.
  destruct (merge_sort TileRow.by_sort_order (table w)) as [|r data] eqn:Hdata.
  { destruct Hne. apply Permutation_nil_r.
    by rewrite <-(merge_sort_Permutation TileRow.by_sort_order), Hdata. }
  simpl. by destruct (0 <? latestUpdate (r :: data))%Z.
Qed.

(** A fetch that finds no row seeds the table with the defaults. *)
Lemma fetchTiles_empty toLocaleString now w :
  table w = [] →
  let w' := exec (fetchTiles toLocaleString Js.Succeeds Js.Succeeds now) w in
  tiles (ui w') = DEFAULT_TILES
  ∧ table w' = rowsOf now DEFAULT_TILES
  ∧ error (ui w') = None
  ∧ console w' = console w.
Proof.
  intros Hempty.
  unfold fetchTiles, exec, bind, try_finally, try_catch, await, on_table.
  simpl. rewrite Hempty. by vm_compute.
Qed.

(** A save that goes through replaces the rows of the table by the rows of
    the saved tiles. *)
Lemma handleSave_succeeds now timestamp W w :
  NoDup (id <$> W) →
  Forall (λ r, TileRow.id r ≠ "") (table w) →
  let w' := exec (handleSave Js.Succeeds Js.Succeeds now timestamp W) w in
  tiles (ui w') = W
  ∧ lastUpdated (ui w') = Some timestamp
  ∧ isManaging (ui w') = false
  ∧ error (ui w') = None
  ∧ table w' = rowsOf now W.
Proof.
  intros Hids Htable.
  assert (filter (λ r, TileRow.id r = "") (table w) = []) as Hdel.
  { induction Htable as [|r table Hr _ IH]; [done|].
    by rewrite filter_cons_False. }
  unfold handleSave, exec, bind, try_finally, try_catch, await, on_table.
  simpl. rewrite Hdel. simpl. fold (rowsOf now W).
  destruct (decide (NoDup (TileRow.id <$> rowsOf now W))) as [|Hdup]; [done|].
  destruct Hdup. by rewrite rowsOf_ids.
Qed.

End Controller.

Section ControllerClaims.
Import App.
Implicit Types (w : System) (W : list TileDefinition).

(** C2, as the code has it: for a non-empty working copy [W] with pairwise
    distinct ids, saved with success over a table that holds no row with the
    empty id, the canonical list is [W], and a fresh fetch, from any client
    and whatever the physical order of the rows, yields the tiles of [W] in
    the order of [W] with every empty-string [imageUrl] or [description]
    read back as missing; it is [W] itself, ids, fields and order, when no
    tile of [W] has such an empty optional field. *)
Theorem save_then_fetch_round_trip
    (toLocaleString : Z → string) oInsert now now' timestamp W w :
  W ≠ [] →
  NoDup (id <$> W) →
  Forall (λ r, TileRow.id r ≠ "") (table w) →
  let w1 := exec (handleSave Js.Succeeds Js.Succeeds now timestamp W) w in
  tiles (ui w1) = W
  ∧ ∀ client, table client ≡ₚ table w1 →
      let w2 := exec (fetchTiles toLocaleString Js.Succeeds oInsert now')
                     client in
      tiles (ui w2) = readBack <$> W
      ∧ (Forall (λ t, imageUrl t ≠ Some "" ∧ description t ≠ Some "") W →
         tiles (ui w2) = W).
Proof.
  intros Hne Hids Htable w1.
  destruct (handleSave_succeeds now timestamp W w Hids Htable)
    as (Htiles & _ & _ & _ & Hrows).
  fold w1 in Htiles, Hrows. split; [done|].
  intros client Hperm w2. rewrite Hrows in Hperm.
  assert (table client ≠ []) as Hrows_ne.
  { intros Hnil. rewrite Hnil in Hperm. symmetry in Hperm.
    apply Permutation_nil_r in Hperm. unfold rowsOf in Hperm.
    apply fmap_nil_inv in Hperm. by destruct W. }
  destruct (fetchTiles_rows toLocaleString oInsert now' client Hrows_ne)
    as (Hfetched & _).
  fold w2 in Hfetched.
  rewrite (merge_sort_rowsOf now W _ Hperm), rowToTile_rowsOf in Hfetched.
  split; [done|].
  intros Hfields. by rewrite Hfetched, readBack_all_id.
Qed.

(** What a failed save leaves behind. *)
Lemma handleSave_fails oDelete oInsert now timestamp W w e :
  (let deleted := Supabase.delete_neq_id oDelete "" (table w) in
   Js.failed_with deleted.2 e
   ∨ (deleted.2 = Js.Resolved None None
      ∧ Js.failed_with
          (Supabase.insert oInsert now (imap tileToInsert W) deleted.1).2 e)) →
  let r := handleSave oDelete oInsert now timestamp W w in
  r.2 = inr tt
  ∧ tiles (ui r.1) = tiles (ui w)
  ∧ lastUpdated (ui r.1) = lastUpdated (ui w)
  ∧ error (ui r.1) = Some "Failed to save changes. Please try again."
  ∧ isManaging (ui r.1) = isManaging (ui w)
  ∧ isSaving (ui r.1) = false
  ∧ console r.1 = console w ++ [("Error saving tiles:", e)].
Proof.
  unfold handleSave, bind, try_finally, try_catch, await, on_table. simpl.
  destruct (Supabase.delete_neq_id oDelete "" (table w))
    as [table1 [data [e1|]|e1]]; simpl.
  - intros [->|[[=] _]]. done.
  - intros [[]|[_ Hins]].
    destruct (Supabase.insert oInsert now (imap tileToInsert W) table1)
      as [table2 [data2 [e2|]|e2]]; simpl in *; by subst.
  - intros [->|[[=] _]]. done.
Qed.

(** What a reset whose delete fails leaves behind. *)
Lemma handleReset_delete_fails oDelete oInsert now w e :
  Js.failed_with (Supabase.delete_neq_id oDelete "" (table w)).2 e →
  let r := handleReset oDelete oInsert now w in
  r.2 = inr tt
  ∧ tiles (ui r.1) = tiles (ui w)
  ∧ lastUpdated (ui r.1) = lastUpdated (ui w)
  ∧ error (ui r.1) = Some "Failed to reset. Please try again."
  ∧ isManaging (ui r.1) = isManaging (ui w)
  ∧ isSaving (ui r.1) = false
  ∧ console r.1 = console w ++ [("Error resetting:", e)].
Proof.
  unfold handleReset, bind, try_finally, try_catch, await, on_table. simpl.
  destruct (Supabase.delete_neq_id oDelete "" (table w))
    as [table1 [data [e1|]|e1]]; simpl; by intros ?; subst.
Qed.

(** C6, as the code has it: a save whose delete or insert fails, and a reset
    whose delete fails, end without throwing, leave the canonical tile list
    and the last-updated value as they were before the call (the manager
    stays as it was, open with its working copy), and set an error message
    that the Dismiss button clears. *)
Theorem failed_save_or_reset_keeps_state
    oDelete oInsert now timestamp W w e :
  let deleted := Supabase.delete_neq_id oDelete "" (table w) in
  let inserted := Supabase.insert oInsert now (imap tileToInsert W) deleted.1 in
  ((Js.failed_with deleted.2 e
    ∨ (deleted.2 = Js.Resolved None None ∧ Js.failed_with inserted.2 e)) →
   let r := handleSave oDelete oInsert now timestamp W w in
   r.2 = inr tt
   ∧ tiles (ui r.1) = tiles (ui w)
   ∧ lastUpdated (ui r.1) = lastUpdated (ui w)
   ∧ isManaging (ui r.1) = isManaging (ui w)
   ∧ error (ui r.1) = Some "Failed to save changes. Please try again."
   ∧ error (ui (exec dismissError r.1)) = None)
  ∧ (Js.failed_with deleted.2 e →
     let r := handleReset oDelete oInsert now w in
     r.2 = inr tt
     ∧ tiles (ui r.1) = tiles (ui w)
     ∧ lastUpdated (ui r.1) = lastUpdated (ui w)
     ∧ isManaging (ui r.1) = isManaging (ui w)
     ∧ error (ui r.1) = Some "Failed to reset. Please try again."
     ∧ error (ui (exec dismissError r.1)) = None).
Proof.
  intros deleted inserted. split.
  - intros Hfail r.
    destruct (handleSave_fails oDelete oInsert now timestamp W w e Hfail)
      as (? & ? & ? & ? & ? & _).
    by repeat split.
  - intros Hfail r.
    destruct (handleReset_delete_fails oDelete oInsert now w e Hfail)
      as (? & ? & ? & ? & ? & _).
    by repeat split.
Qed.


(** C10: when the insert of the defaults fails, [seedDefaultTiles] does not
    throw, the canonical list becomes the default set all the same, the
    failure goes to the console and the error message of the page is left as
    it was. *)
Theorem seedDefaultTiles_failure_only_logged oInsert now w e :
  Js.failed_with
    (Supabase.insert oInsert now (imap tileToInsert DEFAULT_TILES) (table w)).2
    e →
  let r := seedDefaultTiles oInsert now w in
  r.2 = inr tt
  ∧ tiles (ui r.1) = DEFAULT_TILES
  ∧ error (ui r.1) = error (ui w)
  ∧ console r.1 = console w ++ [("Error seeding defaults:", e)].
Proof.
  unfold seedDefaultTiles, bind, try_catch, await, on_table.
  destruct (Supabase.insert oInsert now (imap tileToInsert DEFAULT_TILES)
              (table w)) as [table1 [data [e1|]|e1]]; simpl;
    by intros ?; subst.
Qed.

End ControllerClaims.

Lemma save_then_fetch_round_trip_witness :
  let w1 := exec (App.handleSave Js.Succeeds Js.Succeeds 1700000000000
                    "03/11/2026, 10:00:00"
                    [Sample.teams; Sample.mail_with_image])
                 Sample.dashboard in
  App.tiles (App.ui (exec (App.fetchTiles Sample.toLocaleString Js.Succeeds
                             Js.Succeeds 1700000000999) w1))
  = [Sample.teams; Sample.mail_with_image].
Proof.
  intros w1.
  destruct (save_then_fetch_round_trip Sample.toLocaleString Js.Succeeds
              1700000000000 1700000000999 "03/11/2026, 10:00:00"
              [Sample.teams; Sample.mail_with_image] Sample.dashboard)
    as [_ Hfetch].
  - discriminate.
  - apply (bool_decide_unpack _). vm_compute. exact I.
  - apply (bool_decide_unpack _). vm_compute. exact I.
  - apply (Hfetch w1); [reflexivity|].
    repeat constructor; discriminate.
Defined.

(** C2 as stated fails: a tile whose image was removed in the editor has the
    empty string as [imageUrl]; it is saved as [null] and fetched without
    [imageUrl].  And an empty working copy leaves the table empty, so that
    the next fetch seeds and shows the defaults. *)
Lemma save_then_fetch_differs :
  (let W := [Sample.mail_image_removed; Sample.teams] in
   let w1 := exec (App.handleSave Js.Succeeds Js.Succeeds 1700000000000
                     "03/11/2026, 10:00:00" W) Sample.dashboard in
   let w2 := exec (App.fetchTiles Sample.toLocaleString Js.Succeeds
                     Js.Succeeds 1700000000999) w1 in
   App.tiles (App.ui w1) = W
   ∧ App.tiles (App.ui w2) = [Sample.mail; Sample.teams]
   ∧ App.tiles (App.ui w2) ≠ W)
  ∧ (let w1 := exec (App.handleSave Js.Succeeds Js.Succeeds 1700000000000
                       "03/11/2026, 10:00:00" []) Sample.dashboard in
     let w2 := exec (App.fetchTiles Sample.toLocaleString Js.Succeeds
                       Js.Succeeds 1700000000999) w1 in
     App.tiles (App.ui w1) = []
     ∧ App.tiles (App.ui w2) = DEFAULT_TILES).
Proof. vm_compute. repeat split. discriminate. Qed.

Lemma failed_save_or_reset_keeps_state_witness :
  (let r := App.handleSave Js.Succeeds (Js.ReturnsError "permission denied")
              1700000000000 "03/11/2026, 10:00:00" [Sample.teams]
              Sample.dashboard in
   App.tiles (App.ui r.1) = [Sample.mail; Sample.teams]
   ∧ App.lastUpdated (App.ui r.1) = Some "03/11/2026, 09:00:00"
   ∧ App.error (App.ui r.1) = Some "Failed to save changes. Please try again.")
  ∧ (let r := App.handleReset (Js.Throws "Failed to fetch") Js.Succeeds
                1700000000000 Sample.dashboard in
     App.tiles (App.ui r.1) = [Sample.mail; Sample.teams]
     ∧ App.lastUpdated (App.ui r.1) = Some "03/11/2026, 09:00:00"
     ∧ App.error (App.ui r.1) = Some "Failed to reset. Please try again.").
Proof.
  split.
  - destruct (proj1 (failed_save_or_reset_keeps_state
                       Js.Succeeds (Js.ReturnsError "permission denied")
                       1700000000000 "03/11/2026, 10:00:00" [Sample.teams]
                       Sample.dashboard "permission denied"))
      as (_ & Htiles & Hlast & _ & Herr & _).
    + right. split; reflexivity.
    + cbv zeta. rewrite Htiles, Hlast, Herr. repeat split.
  - destruct (proj2 (failed_save_or_reset_keeps_state
                       (Js.Throws "Failed to fetch") Js.Succeeds
                       1700000000000 "03/11/2026, 10:00:00" [Sample.teams]
                       Sample.dashboard "Failed to fetch"))
      as (_ & Htiles & Hlast & _ & Herr & _).
    + reflexivity.
    + cbv zeta. rewrite Htiles, Hlast, Herr. repeat split.
Defined.

(** C6 as stated fails: when the delete of a reset goes through and the
    insert of the defaults fails, the canonical list becomes the default
    set, the last-updated value is cleared and no error message is set. *)
Lemma failed_reset_insert_changes_state :
  let r := App.handleReset Js.Succeeds (Js.ReturnsError "permission denied")
             1700000000000 Sample.dashboard in
  r.2 = inr tt
  ∧ App.tiles (App.ui r.1) = DEFAULT_TILES
  ∧ App.tiles (App.ui r.1) ≠ App.tiles (App.ui Sample.dashboard)
  ∧ App.lastUpdated (App.ui Sample.dashboard) = Some "03/11/2026, 09:00:00"
  ∧ App.lastUpdated (App.ui r.1) = None
  ∧ App.error (App.ui r.1) = None.
Proof. vm_compute. repeat split. discriminate. Qed.


Lemma seedDefaultTiles_failure_only_logged_witness :
  let r := App.seedDefaultTiles (Js.ReturnsError "permission denied")
             1700000000000 Sample.fresh in
  App.tiles (App.ui r.1) = DEFAULT_TILES
  ∧ App.error (App.ui r.1) = None
  ∧ App.console r.1 = [("Error seeding defaults:", "permission denied")].
Proof.
  intros r.
  destruct (seedDefaultTiles_failure_only_logged
              (Js.ReturnsError "permission denied") 1700000000000
              Sample.fresh "permission denied")
    as (_ & Htiles & Herr & Hlog); [reflexivity|].
  by repeat split.
Defined.

(** * Further properties of the edit session *)

Section Editing.
Import LinkManager.
Implicit Types (w : System) (t : TileDefinition) (l : list TileDefinition).

Lemma with_field_id t field value :
  field ≠ Fid → id (with_field t field value) = id t.
Proof. by destruct field. Qed.

Lemma with_field_twice t field v1 v2 :
  with_field (with_field t field v1) field v2 = with_field t field v2.
Proof. by destruct field. Qed.

Lemma updateTiles_absent id' field value l :
  id' ∉ id <$> l → updateTiles id' field value l = l.
Proof.
  unfold updateTiles. induction l as [|t l IH]; [done|].
  rewrite fmap_cons, not_elem_of_cons. intros [Hne Hl].
  rewrite fmap_cons, IH by done.
  by destruct (decide (id t = id')) as [<-|].
Qed.

Lemma updateTiles_ids id' field value l :
  field ≠ Fid → id <$> updateTiles id' field value l = id <$> l.
Proof.
  intros Hf. unfold updateTiles. rewrite <-list_fmap_compose.
  apply list_fmap_ext. intros k t _. simpl.
  destruct (decide (id t = id')); [by apply with_field_id|done].
Qed.

Lemma filter_id_absent id' l :
  id' ∉ id <$> l → filter (λ t, id t ≠ id') l = l.
Proof.
  induction l as [|t l IH]; [done|].
  rewrite fmap_cons, not_elem_of_cons. intros [Hne Hl].
  rewrite filter_cons_True by done. by rewrite IH.
Qed.

Lemma filter_id_delete l k t :
  NoDup (id <$> l) → l !! k = Some t →
  filter (λ t', id t' ≠ id t) l = delete k l.
Proof.
  revert k. induction l as [|t0 l IH]; intros k Hnd Hk; [done|].
  rewrite fmap_cons in Hnd. apply NoDup_cons in Hnd as [Hnotin Hnd].
  destruct k as [|k]; simpl in Hk.
  - injection Hk as ->. rewrite filter_cons_False by (by intros []).
    by apply filter_id_absent.
  - rewrite filter_cons_True.
    + simpl. f_equal. by apply IH.
    + intros Heq. apply Hnotin. rewrite Heq.
      apply list_elem_of_fmap. exists t. split; [done|].
      by eapply list_elem_of_lookup_2.
Qed.

Lemma moveTile_back {A : Type} (undefined : A) (arr : list A) i j x :
  arr !! i = Some x → j < length arr →
  moveTile undefined (moveTile undefined arr i j) j i = arr.
Proof.
  intros Hx Hj. pose proof (lookup_lt_Some _ _ _ Hx) as Hi.
  rewrite (moveTile_within undefined (moveTile undefined arr i j) j i x)
    by (by apply moveTile_lookup).
  rewrite (moveTile_others undefined arr i j x) by done.
  rewrite delete_take_drop.
  rewrite (take_app_length' _ _ i) by (rewrite length_take; lia).
  rewrite (drop_app_length' _ _ i) by (rewrite length_take; lia).
  by apply take_drop_middle.
Qed.

(** An update for an id that no tile has changes nothing at all. *)
Theorem handleUpdateTile_unknown_id id' field value w :
  id' ∉ id <$> tiles (ui w) →
  handleUpdateTile id' field value w = (w, inr tt).
Proof.
  intros Hid. unfold handleUpdateTile, setTiles, update_ui, modify.
  rewrite updateTiles_absent by done. by destruct w as [[] ? ? ?].
Qed.

(** An update of a field other than [id] keeps the ids of the working copy,
    tile by tile and in order; distinct ids stay distinct. *)
Theorem handleUpdateTile_keeps_ids id' field value w :
  field ≠ Fid →
  let w' := exec (handleUpdateTile id' field value) w in
  id <$> tiles (ui w') = id <$> tiles (ui w)
  ∧ (NoDup (id <$> tiles (ui w)) → NoDup (id <$> tiles (ui w'))).
Proof.
  intros Hf w'.
  assert (id <$> tiles (ui w') = id <$> tiles (ui w)) as Hids
    by (by apply updateTiles_ids).
  split; [done|]. by rewrite Hids.
Qed.

(** Two updates of the same field of the same tile, other than [id]: the
    later value wins, and the state is the one the later update alone
    gives. *)
Theorem handleUpdateTile_last_wins id' field v1 v2 w :
  field ≠ Fid →
  exec (handleUpdateTile id' field v2) (exec (handleUpdateTile id' field v1) w)
  = exec (handleUpdateTile id' field v2) w.
Proof.
  intros Hf. unfold exec, handleUpdateTile, setTiles, update_ui, modify.
  simpl. do 2 f_equal. unfold updateTiles. rewrite <-list_fmap_compose.
  apply list_fmap_ext. intros k t _. simpl.
  destruct (decide (id t = id')) as [Heq|Hne].
  - rewrite with_field_id, Heq by done.
    destruct (decide (id' = id')); [|done]. apply with_field_twice.
  - by destruct (decide (id t = id')).
Qed.

(** A delete that the user does not confirm, or for an id that no tile has,
    changes nothing at all. *)
Theorem handleDeleteTile_noop confirmed id' w :
  confirmed = false ∨ id' ∉ id <$> tiles (ui w) →
  handleDeleteTile confirmed id' w = (w, inr tt).
Proof.
  intros [->|Hid]; [done|].
  destruct confirmed; [|done].
  unfold handleDeleteTile, setTiles, update_ui, modify.
  rewrite filter_id_absent by done. by destruct w as [[] ? ? ?].
Qed.

(** With distinct ids a confirmed delete takes out exactly the tile with
    that id: the tiles before and after it keep their order. *)
Theorem handleDeleteTile_removes k t w :
  NoDup (id <$> tiles (ui w)) →
  tiles (ui w) !! k = Some t →
  tiles (ui (exec (handleDeleteTile true (id t)) w)) = delete k (tiles (ui w)).
Proof. intros Hnd Hk. simpl. by apply filter_id_delete. Qed.

(** Adding a tile and deleting it again gives back the working copy, when
    the generated id was not in use. *)
Theorem handleAddTile_then_delete now w :
  "custom-" +:+ pretty now ∉ id <$> tiles (ui w) →
  tiles (ui (exec (handleDeleteTile true ("custom-" +:+ pretty now))
               (exec (handleAddTile now) w)))
  = tiles (ui w).
Proof.
  intros Hfresh. simpl. rewrite filter_app, filter_id_absent by done.
  rewrite filter_cons_False by (by intros []). by rewrite app_nil_r.
Qed.

(** Dragging the tile at [i] onto [j] and then the tile at [j] back onto [i]
    restores the working copy. *)
Theorem handleDrop_there_and_back i j w :
  i < length (tiles (ui w)) → j < length (tiles (ui w)) →
  let drag a b w := exec (handleDrop b) (exec (handleDragStart a) w) in
  tiles (ui (drag j i (drag i j w))) = tiles (ui w).
Proof.
  intros Hi Hj drag.
  destruct (lookup_lt_is_Some_2 _ _ Hi) as [x Hx].
  destruct (decide (i = j)) as [<-|Hne].
  { unfold drag, exec. by rewrite !handleDrop_same. }
  set (w1 := drag i j w).
  assert (tiles (ui w1) = moveTile x (tiles (ui w)) i j) as Hthere.
  { unfold w1, drag, exec. by rewrite (handleDrop_within _ i j x). }
  assert (tiles (ui w1) !! j = Some x) as Hxj.
  { rewrite Hthere. by apply moveTile_lookup. }
  assert (tiles (ui (drag j i w1)) = moveTile x (tiles (ui w1)) j i) as Hback.
  { unfold drag, exec.
    by rewrite (handleDrop_within _ j i x) by (done || by apply not_eq_sym). }
  rewrite Hback, Hthere. by apply (moveTile_back x _ i j x).
Qed.

End Editing.

(** ** The drag gesture *)

Section DragGesture.
Import LinkManager.
Implicit Types (w : System).

(** Every drag handler keeps the drag state consistent, when a drag only
    starts while no tile is dragged: nothing is highlighted unless a tile is
    dragged, and the dragged tile is never the highlighted one.  After the
    end of the gesture, and after a drop that went through, no tile is
    dragged and none is highlighted. *)
Theorem drag_handlers_keep_consistent ev w :
  Drag.consistent (ui w) →
  (∀ index, ev = Drag.DragStart index → draggedIndex (ui w) = None) →
  let r := Drag.handler ev w in
  Drag.consistent (ui r.1)
  ∧ (ev = Drag.DragEnd ∨ (∃ dropIndex, ev = Drag.Drop dropIndex) →
     r.2 = inr tt →
     draggedIndex (ui r.1) = None ∧ dragOverIndex (ui r.1) = None).
Proof.
  intros Hc Hstart. unfold Drag.consistent in *.
  destruct ev as [index|index| |dropIndex|]; simpl.
  - rewrite (Hstart index eq_refl) in Hc.
    split; [by destruct (dragOverIndex (ui w))|].
    by intros [[=]|[? [=]]].
  - split; [|by intros [[=]|[? [=]]]].
    unfold handleDragOver, bind, get.
    destruct (draggedIndex (ui w)) as [d|] eqn:Hd; simpl; [|by rewrite Hd].
    destruct (decide (d ≠ index)); simpl; by rewrite Hd.
  - split; [by destruct (draggedIndex (ui w))|].
    by intros [[=]|[? [=]]].
  - unfold handleDrop, bind, get.
    destruct (draggedIndex (ui w)) as [d|] eqn:Hd; simpl; [|done].
    destruct (decide (d = dropIndex)); simpl; [done|].
    destruct (mapM _ _); simpl; [done|].
    rewrite Hd. split; [done|]. by intros _ [=].
  - done.
Qed.

End DragGesture.

(** ** Images: failures, file names and the bucket *)

Section ImageFiles.
Import LinkManager.
Implicit Types (w : System) (s : string) (sep : ascii).

Lemma split_nonempty sep s : Js.split sep s ≠ [].
Proof.
  destruct s as [|c s]; simpl; [done|].
  destruct (Ascii.eqb c sep); [done|]. by destruct (Js.split sep s).
Qed.

Lemma pop_cons seg segs : segs ≠ [] → Js.pop (seg :: segs) = Js.pop segs.
Proof. unfold Js.pop. by destruct segs. Qed.

Lemma split_without sep s :
  JsText.occurs sep s = false → Js.split sep s = [s].
Proof.
  induction s as [|c s IH]; simpl; [done|].
  destruct (Ascii.eqb c sep); simpl; [done|]. intros Hs. by rewrite IH.
Qed.

Lemma split_single sep s seg : Js.split sep s = [seg] → s = seg.
Proof.
  revert seg. induction s as [|c s IH]; intros seg; simpl.
  - by intros [= <-].
  - destruct (Ascii.eqb c sep).
    + intros [= _ Hnil]. by destruct (split_nonempty sep s).
    + destruct (Js.split sep s) as [|seg' segs] eqn:Hsplit.
      * intros [= <-]. by destruct (split_nonempty sep s).
      * intros [= <- ->]. by rewrite (IH seg').
Qed.

Lemma split_parts_without sep s :
  Forall (λ seg, JsText.occurs sep seg = false) (Js.split sep s).
Proof.
  induction s as [|c s IH]; simpl; [by repeat constructor|].
  destruct (Ascii.eqb c sep) eqn:Hc; [by constructor|].
  destruct (Js.split sep s) as [|seg segs]; [by repeat constructor; simpl; rewrite Hc|].
  apply Forall_cons in IH as [Hseg Hsegs].
  constructor; [|done]. simpl. by rewrite Hc.
Qed.

(** The last part of a split has no separator in it. *)
Lemma pop_split_without sep s :
  JsText.occurs sep (Js.pop (Js.split sep s)) = false.
Proof.
  pose proof (split_parts_without sep s) as Hall.
  pose proof (split_nonempty sep s) as Hne.
  unfold Js.pop.
  destruct (last (Js.split sep s)) as [seg|] eqn:Hlast.
  - simpl. rewrite Forall_forall in Hall. apply Hall.
    by apply last_Some_elem_of.
  - by apply last_None in Hlast.
Qed.

(** The last part of a split is the end of the string. *)
Lemma pop_split_suffix sep s :
  ∃ pre, s = pre +:+ Js.pop (Js.split sep s).
Proof.
  induction s as [|c s [pre IH]]; [by exists ""|].
  cbn [Js.split]. destruct (Ascii.eqb c sep).
  - rewrite pop_cons by apply split_nonempty.
    exists (String c pre).
      change (String c s = String c (pre +:+ Js.pop (Js.split sep s))).
      by f_equal.
  - destruct (Js.split sep s) as [|seg segs] eqn:Hsplit;
      [by destruct (split_nonempty sep s)|].
    destruct segs as [|seg' segs].
    + apply split_single in Hsplit as ->. by exists "".
    + rewrite pop_cons by done. rewrite pop_cons in IH by done.
      exists (String c pre).
      change (String c s = String c (pre +:+ Js.pop (seg' :: segs))).
      by f_equal.
Qed.

(** What comes after the last separator is the last part. *)
Lemma pop_split_after sep a b :
  JsText.occurs sep b = false →
  Js.pop (Js.split sep (a +:+ String sep b)) = b.
Proof.
  intros Hb.
  assert (∃ segs, segs ≠ []
                  ∧ Js.split sep (a +:+ String sep b) = segs ++ [b])
    as (segs & _ & ->).
  { induction a as [|c a (segs & Hne & IH)]; simpl.
    - rewrite Ascii.eqb_refl, (split_without _ _ Hb). by exists [""].
    - destruct (Ascii.eqb c sep).
      + exists ("" :: segs). by rewrite IH.
      + rewrite IH. destruct segs as [|seg segs]; [done|].
        by exists (String c seg :: segs). }
  unfold Js.pop. by rewrite last_snoc.
Qed.

(** When the upload of an accepted image fails, by an error response or by a
    rejected promise, the tiles and the bucket stay as they were, the
    uploading marker is cleared, the failure goes to the console and the
    user is alerted; the handler does not throw. *)
Theorem handleImageUpload_failure
    (getPublicUrl : string → string) oUpload now id' file w e :
  (size file ≤ 2 * 1024 * 1024)%Z →
  oUpload = Js.ReturnsError e ∨ oUpload = Js.Throws e →
  handleImageUpload getPublicUrl oUpload now id' file w
  = ({| ui := {| tiles := tiles (ui w); uploadingId := None;
                 draggedIndex := draggedIndex (ui w);
                 dragOverIndex := dragOverIndex (ui w) |};
        bucket := bucket w;
        alerts := alerts w ++ ["Failed to upload image. Please try again."];
        console := console w ++ [("Error uploading image:", e)] |},
     inr tt).
Proof.
  intros Hsmall Hfail.
  unfold handleImageUpload, handleImageUpload_start, bind.
  destruct (Z.ltb_spec (2 * 1024 * 1024) (size file)) as [|_]; [lia|].
  by destruct Hfail as [-> | ->].
Qed.

(** The name under which an accepted image is uploaded is the tile id, a
    dash, the clock value, a dot and an extension; the extension is the end
    of the file's name, has no dot in it, and is the whole name when the
    name has no dot. *)
Theorem handleImageUpload_file_name id' file now w :
  (size file ≤ 2 * 1024 * 1024)%Z →
  ∃ ext pre,
    (handleImageUpload_start id' file now w).2
    = inr (Some (id' +:+ "-" +:+ pretty now +:+ "." +:+ ext))
    ∧ name file = pre +:+ ext
    ∧ JsText.occurs "." ext = false
    ∧ (JsText.occurs "." (name file) = false → ext = name file).
Proof.
  intros Hsmall.
  destruct (pop_split_suffix "." (name file)) as [pre Hpre].
  exists (Js.pop (Js.split "." (name file))), pre.
  repeat split.
  - unfold handleImageUpload_start.
    by destruct (Z.ltb_spec (2 * 1024 * 1024) (size file)) as [|_]; [lia|].
  - done.
  - apply pop_split_without.
  - intros Hnodot. by rewrite split_without.
Qed.

(** Removing an image that the editor uploaded deletes from the bucket the
    very file that the upload stored: when the public URL of the file ends
    in a slash and the file name, the name has no slash and was not in the
    bucket, an upload and a removal that both succeed leave the bucket as it
    was, and the tiles with that id with the empty string as [imageUrl]. *)
Theorem upload_then_remove_restores_bucket
    (getPublicUrl : string → string) base now id' file w :
  (size file ≤ 2 * 1024 * 1024)%Z →
  let fileName :=
    id' +:+ "-" +:+ pretty now +:+ "." +:+ Js.pop (Js.split "." (name file)) in
  getPublicUrl fileName = base +:+ String "/" fileName →
  JsText.occurs "/" fileName = false →
  fileName ∉ bucket w →
  let w1 := exec (handleImageUpload getPublicUrl Js.Succeeds now id' file) w in
  let w2 := exec (handleRemoveImage Js.Succeeds id'
                    (Some (getPublicUrl fileName))) w1 in
  bucket w1 = bucket w ++ [fileName]
  ∧ bucket w2 = bucket w
  ∧ tiles (ui w2) = updateTiles id' FimageUrl "" (tiles (ui w)).
Proof.
  intros Hsmall fileName Hurl Hslash Hnew w1 w2.
  assert (w1 = exec (handleImageUpload_settle getPublicUrl Js.Succeeds id'
                       fileName) (exec (setUploadingId (Some id')) w))
    as Hw1.
  { unfold w1, exec, handleImageUpload, handleImageUpload_start, bind.
    by destruct (Z.ltb_spec (2 * 1024 * 1024) (size file)) as [|_]; [lia|]. }
  assert (bucket w1 = bucket w ++ [fileName]) as Hb1.
  { rewrite Hw1. simpl. by destruct (decide (fileName ∈ bucket w)). }
  assert (tiles (ui w1)
          = updateTiles id' FimageUrl (getPublicUrl fileName) (tiles (ui w)))
    as Ht1 by (by rewrite Hw1).
  assert (Js.orUndefined (Some (getPublicUrl fileName))
          = Some (getPublicUrl fileName)) as Htruthy.
  { rewrite Hurl. unfold Js.orUndefined, Js.orNull.
    destruct (String.eqb_spec (base +:+ String "/" fileName) "") as [Heq|];
      [|done].
    by destruct base. }
  assert (Js.pop (Js.split "/" (getPublicUrl fileName)) = fileName) as Hpop.
  { rewrite Hurl. by apply pop_split_after. }
  split; [done|].
  unfold w2, exec, handleRemoveImage. rewrite Htruthy.
  unfold bind, try_catch, await, storage_remove. simpl. rewrite Hpop.
  split.
  - rewrite Hb1, filter_app. simpl.
    rewrite (filter_cons_False _ fileName) by (by intros []).
    rewrite app_nil_r. clear -Hnew.
    induction (bucket w) as [|f l IH]; [done|].
    apply not_elem_of_cons in Hnew as [Hne Hl].
    rewrite filter_cons_True by done. by rewrite IH.
  - rewrite Ht1. unfold updateTiles. rewrite <-list_fmap_compose.
    apply list_fmap_ext. intros k t _. simpl.
    destruct (decide (id t = id')) as [Heq|Hne]; simpl.
    + rewrite Heq. by destruct (decide (id' = id')).
    + by destruct (decide (id t = id')).
Qed.

End ImageFiles.

(** * Further properties of the sync controller *)

Section ControllerMore.
Import App.
Implicit Types (w : System) (W : list TileDefinition) (data : list TileRow.t).

#[local] Existing Instance by_sort_order_trans.
#[local] Existing Instance by_sort_order_total.

Lemma filter_empty_id table :
  Forall (λ r, TileRow.id r ≠ "") table → filter (λ r, TileRow.id r = "") table = [].
Proof.
  induction 1 as [|r table Hr _ IH]; [done|]. by rewrite filter_cons_False.
Qed.

(** An insert that fails leaves the table as it was. *)
Lemma insert_failed_table oInsert now rows table e :
  Js.failed_with (Supabase.insert oInsert now rows table).2 e →
  (Supabase.insert oInsert now rows table).1 = table.
Proof.
  unfold Supabase.insert. destruct oInsert; simpl; [|done..].
  by destruct (decide (NoDup _)).
Qed.

(** What a save leaves behind when its delete went through and its insert
    failed. *)
Lemma handleSave_insert_fails oInsert now timestamp W w e :
  Forall (λ r, TileRow.id r ≠ "") (table w) →
  Js.failed_with (Supabase.insert oInsert now (imap tileToInsert W) []).2 e →
  handleSave Js.Succeeds oInsert now timestamp W w
  = ({| ui := {| tiles := tiles (ui w); lastUpdated := lastUpdated (ui w);
                 searchQuery := searchQuery (ui w);
                 isManaging := isManaging (ui w);
                 isLoading := isLoading (ui w); isSaving := false;
                 error := Some "Failed to save changes. Please try again." |};
        table := [];
        console := console w ++ [("Error saving tiles:", e)] |},
     inr tt).
Proof.
  intros Htable Hfail.
  pose proof (insert_failed_table _ _ _ _ _ Hfail) as Hsame.
  unfold handleSave, bind, try_finally, try_catch, await, on_table. simpl.
  rewrite (filter_empty_id _ Htable). simpl.
  destruct (Supabase.insert oInsert now (imap tileToInsert W) [])
    as [table1 [data [e1|]|e1]]; simpl in *; by subst.
Qed.

(** The fold of [latestUpdate] from any start value: a maximum. *)
Lemma latestUpdate_from (start : Z) data :
  let m := foldl (λ latest row,
                    if (latest <? TileRow.updated_at row)%Z
                    then TileRow.updated_at row else latest) start data in
  (start ≤ m)%Z
  ∧ (∀ row, row ∈ data → (TileRow.updated_at row ≤ m)%Z)
  ∧ (m = start ∨ ∃ row, row ∈ data ∧ TileRow.updated_at row = m).
Proof.
  revert start. induction data as [|r data IH]; intros start; simpl.
  { split; [lia|]. split; [|by left]. intros row Hrow. by inv Hrow. }
  set (start' := if (start <? TileRow.updated_at r)%Z
                 then TileRow.updated_at r else start).
  destruct (IH start') as (Hge & Hall & Hatt).
  assert (start ≤ start' ∧ TileRow.updated_at r ≤ start')%Z as [Hs Hr].
  { unfold start'. destruct (Z.ltb_spec start (TileRow.updated_at r)); lia. }
  split; [lia|]. split.
  - intros row Hrow. apply elem_of_cons in Hrow as [->|Hrow]; [lia|].
    by apply Hall.
  - destruct Hatt as [Hm|(row & Hrow & Hm)].
    + unfold start' in Hm.
      destruct (Z.ltb_spec start (TileRow.updated_at r)).
      * right. exists r. split; [left|done].
      * by left.
    + right. exists row. split; [by right|done].
Qed.

(** When the select fails, by an error response or by a rejected promise,
    the page shows the default tiles and the error message; the defaults are
    not written to the table, the last-updated value stays, and loading
    ends. *)
Theorem fetchTiles_failure
    (toLocaleString : Z → string) oSelect oInsert now w e :
  oSelect = Js.ReturnsError e ∨ oSelect = Js.Throws e →
  fetchTiles toLocaleString oSelect oInsert now w
  = ({| ui := {| tiles := DEFAULT_TILES; lastUpdated := lastUpdated (ui w);
                 searchQuery := searchQuery (ui w);
                 isManaging := isManaging (ui w);
                 isLoading := false; isSaving := isSaving (ui w);
                 error := Some "Failed to load links. Please refresh the page." |};
        table := table w;
        console := console w ++ [("Error fetching tiles:", e)] |},
     inr tt).
Proof. by intros [-> | ->]. Qed.

(** After a fetch that finds rows, the last-updated value is the latest
    [updated_at] among the rows of the table, when that is after the epoch;
    otherwise the value shown before is kept. *)
Theorem fetchTiles_lastUpdated
    (toLocaleString : Z → string) oInsert now w :
  table w ≠ [] →
  ∃ m : Z,
    (0 ≤ m)%Z
    ∧ (∀ row, row ∈ table w → (TileRow.updated_at row ≤ m)%Z)
    ∧ (m = 0%Z ∨ ∃ row, row ∈ table w ∧ TileRow.updated_at row = m)
    ∧ lastUpdated (ui (exec (fetchTiles toLocaleString Js.Succeeds oInsert
                               now) w))
      = if (0 <? m)%Z then Some (toLocaleString m) else lastUpdated (ui w).
Proof.
  intros Hne.
  set (data := merge_sort TileRow.by_sort_order (table w)).
  assert (data ≡ₚ table w) as Hperm by apply merge_sort_Permutation.
  destruct (latestUpdate_from 0 data) as (Hge & Hall & Hatt).
  exists (latestUpdate data). split; [done|]. split; [|split].
  - intros row Hrow. apply Hall. by rewrite Hperm.
  - destruct Hatt as [Hm|(row & Hrow & Hm)]; [by left|].
    right. exists row. split; [by rewrite <-Hperm|done].
  - unfold fetchTiles, exec, bind, try_finally, try_catch, await, on_table.
    simpl. fold data.
    destruct data as [|r data'] eqn:Hdata.
    { destruct Hne. by apply Permutation_nil_r. }
    simpl. by destruct (0 <? latestUpdate (r :: data'))%Z.
Qed.

(** A fetch after a fetch changes nothing: on a table with rows, fetching
    again, at whatever time, leaves the page and the table as the first
    fetch left them. *)
Theorem fetchTiles_idempotent
    (toLocaleString : Z → string) oInsert oInsert' now now' w :
  table w ≠ [] →
  exec (fetchTiles toLocaleString Js.Succeeds oInsert' now')
       (exec (fetchTiles toLocaleString Js.Succeeds oInsert now) w)
  = exec (fetchTiles toLocaleString Js.Succeeds oInsert now) w.
Proof.
  intros Hne.
  unfold fetchTiles, exec, bind, try_finally, try_catch, await, on_table.
  simpl.
  destruct (merge_sort TileRow.by_sort_order (table w)) as [|r data] eqn:Hdata.
  { destruct Hne. apply Permutation_nil_r.
    by rewrite <-(merge_sort_Permutation TileRow.by_sort_order), Hdata. }
  simpl.
  destruct (0 <? latestUpdate (r :: data))%Z eqn:Hlatest; simpl;
    rewrite Hdata; simpl; by rewrite Hlatest.
Qed.

(** A fetch that finds rows shows each row of the table once, as a tile, in
    ascending sort position; when the sort positions are pairwise different
    the list is the same for every physical order of the rows. *)
Theorem fetchTiles_order
    (toLocaleString : Z → string) oInsert now w :
  table w ≠ [] →
  let fetched w := tiles (ui (exec (fetchTiles toLocaleString Js.Succeeds
                                      oInsert now) w)) in
  (∃ rows, rows ≡ₚ table w
           ∧ Sorted TileRow.by_sort_order rows
           ∧ fetched w = rowToTile <$> rows)
  ∧ (NoDup (TileRow.sort_order <$> table w) →
     ∀ w', table w' ≡ₚ table w → fetched w' = fetched w).
Proof.
  intros Hne fetched.
  assert (∀ w0, table w0 ≡ₚ table w →
                fetched w0
                = rowToTile <$> merge_sort TileRow.by_sort_order (table w0))
    as Hfetched.
  { intros w0 Hperm. apply fetchTiles_rows.
    intros Hnil. rewrite Hnil in Hperm. destruct Hne.
    by apply Permutation_nil_l in Hperm. }
  split.
  - exists (merge_sort TileRow.by_sort_order (table w)).
    split; [apply merge_sort_Permutation|].
    split; [apply Sorted_merge_sort, _|by apply Hfetched].
  - intros Hnd w' Hperm. rewrite !Hfetched by done. f_equal.
    apply (Sorted_unique_strong TileRow.by_sort_order).
    + intros r1 r2 Hr1 Hr2 H12 H21.
      rewrite merge_sort_Permutation, Hperm in Hr1.
      rewrite merge_sort_Permutation in Hr2.
      unfold TileRow.by_sort_order in *.
      assert (TileRow.sort_order r1 = TileRow.sort_order r2) as Heq by lia.
      apply list_elem_of_lookup in Hr1 as [k1 Hk1].
      apply list_elem_of_lookup in Hr2 as [k2 Hk2].
      assert (k1 = k2) as ->.
      { eapply NoDup_lookup; [exact Hnd|..];
          rewrite list_lookup_fmap; [by rewrite Hk1|by rewrite Hk2, Heq]. }
      congruence.
    + apply Sorted_merge_sort, _.
    + apply Sorted_merge_sort, _.
    + by rewrite !merge_sort_Permutation.
Qed.

(** A save is not atomic.  When the delete goes through and the insert
    fails, the table is left empty while the page keeps the tiles it had and
    shows the error; the next fetch that succeeds then finds no row, seeds
    the table with the defaults and shows them. *)
Theorem handleSave_failed_insert_loses_rows
    (toLocaleString : Z → string) oInsert now now' timestamp W w e :
  Forall (λ r, TileRow.id r ≠ "") (table w) →
  Js.failed_with (Supabase.insert oInsert now (imap tileToInsert W) []).2 e →
  let w1 := exec (handleSave Js.Succeeds oInsert now timestamp W) w in
  let w2 := exec (fetchTiles toLocaleString Js.Succeeds Js.Succeeds now')
                 w1 in
  table w1 = []
  ∧ tiles (ui w1) = tiles (ui w)
  ∧ error (ui w1) = Some "Failed to save changes. Please try again."
  ∧ tiles (ui w2) = DEFAULT_TILES
  ∧ table w2 = rowsOf now' DEFAULT_TILES.
Proof.
  intros Htable Hfail w1 w2.
  pose proof (handleSave_insert_fails oInsert now timestamp W w e Htable Hfail)
    as Hsave.
  assert (table w1 = [] ∧ tiles (ui w1) = tiles (ui w)
          ∧ error (ui w1) = Some "Failed to save changes. Please try again.")
    as (Hempty & Hkept & Herror).
  { unfold w1, exec. by rewrite Hsave. }
  destruct (fetchTiles_empty toLocaleString now' w1 Hempty)
    as (Htiles & Hrows & _).
  by repeat split.
Qed.

(** A working copy in which an id occurs twice cannot be saved: with the
    store reachable the insert breaks the primary key, the save ends with
    the error message, the page keeps its tiles, and the table, already
    emptied by the delete, stays empty. *)
Theorem handleSave_duplicate_ids now timestamp W w :
  ¬ NoDup (id <$> W) →
  Forall (λ r, TileRow.id r ≠ "") (table w) →
  let w1 := exec (handleSave Js.Succeeds Js.Succeeds now timestamp W) w in
  error (ui w1) = Some "Failed to save changes. Please try again."
  ∧ tiles (ui w1) = tiles (ui w)
  ∧ lastUpdated (ui w1) = lastUpdated (ui w)
  ∧ table w1 = [].
Proof.
  intros Hdup Htable w1.
  assert (Js.failed_with
            (Supabase.insert Js.Succeeds now (imap tileToInsert W) []).2
            "duplicate key value violates unique constraint tiles_pkey")
    as Hfail.
  { unfold Supabase.insert. simpl. fold (rowsOf now W).
    destruct (decide (NoDup (TileRow.id <$> rowsOf now W))) as [Hnd|]; [|done].
    destruct Hdup. by rewrite <-(rowsOf_ids now). }
  unfold w1, exec. by rewrite (handleSave_insert_fails _ _ _ _ _ _ Htable Hfail).
Qed.

(** A reset that goes through, over a table without a row of empty id: the
    page shows the defaults, the last-updated value is cleared, the manager
    is closed, the table holds the defaults with their index as sort
    position, and every client that fetches gets the defaults in order. *)
Theorem handleReset_then_fetch
    (toLocaleString : Z → string) oInsert now now' w :
  Forall (λ r, TileRow.id r ≠ "") (table w) →
  let w1 := exec (handleReset Js.Succeeds Js.Succeeds now) w in
  tiles (ui w1) = DEFAULT_TILES
  ∧ lastUpdated (ui w1) = None
  ∧ isManaging (ui w1) = false
  ∧ error (ui w1) = None
  ∧ table w1 = rowsOf now DEFAULT_TILES
  ∧ ∀ client, table client ≡ₚ table w1 →
      tiles (ui (exec (fetchTiles toLocaleString Js.Succeeds oInsert now')
                      client))
      = DEFAULT_TILES.
Proof.
  intros Htable w1.
  assert (w1 = {| ui := {| tiles := DEFAULT_TILES; lastUpdated := None;
                           searchQuery := searchQuery (ui w);
                           isManaging := false;
                           isLoading := isLoading (ui w); isSaving := false;
                           error := None |};
                  table := rowsOf now DEFAULT_TILES;
                  console := console w |}) as ->.
  { unfold w1, handleReset, exec, bind, try_finally, try_catch, await,
      on_table.
    simpl. rewrite (filter_empty_id _ Htable). by vm_compute. }
  repeat split. simpl. intros client Hperm.
  assert (table client ≠ []) as Hne.
  { intros Hnil. rewrite Hnil in Hperm. by apply Permutation_nil_l in Hperm. }
  destruct (fetchTiles_rows toLocaleString oInsert now' client Hne)
    as (-> & _).
  rewrite (merge_sort_rowsOf now DEFAULT_TILES) by done.
  by rewrite rowToTile_rowsOf.
Qed.

(** Whatever the store does, the handlers of the controller do not throw,
    and the busy flags are cleared when they end: [isSaving] after a save
    and after a reset, [isLoading] after a fetch. *)
Theorem controller_handlers_end_idle
    (toLocaleString : Z → string) o1 o2 now timestamp W w :
  (let r := handleSave o1 o2 now timestamp W w in
   r.2 = inr tt ∧ isSaving (ui r.1) = false)
  ∧ (let r := handleReset o1 o2 now w in
     r.2 = inr tt ∧ isSaving (ui r.1) = false)
  ∧ (let r := fetchTiles toLocaleString o1 o2 now w in
     r.2 = inr tt ∧ isLoading (ui r.1) = false).
Proof.
  split; [|split].
  - unfold handleSave, bind, try_finally, try_catch, await, on_table. simpl.
    destruct o1; simpl; [|done..].
    destruct o2; simpl; [|done..].
    by destruct (decide (NoDup _)).
  - unfold handleReset, seedDefaultTiles, bind, try_finally, try_catch,
      await, on_table. simpl.
    destruct o1; simpl; [|done..].
    destruct o2; simpl; [|done..].
    by destruct (decide (NoDup _)).
  - unfold fetchTiles, seedDefaultTiles, bind, try_finally, try_catch,
      await, on_table. simpl.
    destruct o1; simpl; [|done..].
    destruct (merge_sort TileRow.by_sort_order (table w)) as [|r data]; simpl.
    + destruct o2; simpl; [|done..].
      by destruct (decide (NoDup _)).
    + by destruct (0 <? latestUpdate (r :: data))%Z.
Qed.

End ControllerMore.

(** * Properties of what the page shows *)

Section Display.
Implicit Types (s q : string) (c : ascii) (tile : TileDefinition).

Lemma prefix_refl s : String.prefix s s = true.
Proof.
  induction s as [|c s IH]; simpl; [done|].
  by destruct (ascii_dec c c).
Qed.

Lemma includes_empty s : JsText.includes s "" = true.
Proof. by destruct s. Qed.

Lemma includes_refl s : JsText.includes s s = true.
Proof. destruct s; cbn [JsText.includes]; by rewrite prefix_refl. Qed.

Lemma toLowerCase_char_idemp c :
  JsText.toLowerCase_char (JsText.toLowerCase_char c)
  = JsText.toLowerCase_char c.
Proof. by destruct c as [[] [] [] [] [] [] [] []]. Qed.

Lemma toLowerCase_idemp s :
  JsText.toLowerCase (JsText.toLowerCase s) = JsText.toLowerCase s.
Proof.
  induction s as [|c s IH]; simpl; [done|].
  by rewrite toLowerCase_char_idemp, IH.
Qed.

Lemma matchesSearch_lower q tile :
  View.matchesSearch (JsText.toLowerCase q) tile = View.matchesSearch q tile.
Proof. unfold View.matchesSearch. by rewrite toLowerCase_idemp. Qed.

Lemma trimEnd_empty s :
  JsText.trimEnd s = ""
  ↔ ∀ c, JsText.occurs c s = true → JsText.isWhiteSpace c = true.
Proof.
  induction s as [|c0 s IH]; simpl; [done|].
  destruct (JsText.trimEnd s) as [|c1 rest] eqn:Hend.
  - destruct (JsText.isWhiteSpace c0) eqn:Hws; split; try done.
    + intros _ c Hc. apply orb_true_iff in Hc as [Hc|Hc].
      * apply Ascii.eqb_eq in Hc. by subst.
      * by apply IH.
    + intros Hall. specialize (Hall c0).
      rewrite Ascii.eqb_refl in Hall. simpl in Hall.
      rewrite Hws in Hall. by specialize (Hall eq_refl).
  - split; [done|]. intros Hall.
    assert (String c1 rest = "") as Hnil; [|done].
    apply IH. intros c Hc. apply Hall. rewrite Hc. apply orb_true_r.
Qed.

Lemma trimStart_blank s :
  (∀ c, JsText.occurs c s = true → JsText.isWhiteSpace c = true) →
  JsText.trimStart s = "".
Proof.
  induction s as [|c0 s IH]; simpl; [done|]. intros Hall.
  rewrite (Hall c0) by (by rewrite Ascii.eqb_refl).
  apply IH. intros c Hc. apply Hall. rewrite Hc. apply orb_true_r.
Qed.

Lemma trimStart_head s c :
  JsText.occurs c s = true → JsText.isWhiteSpace c = false →
  ∃ c' rest, JsText.trimStart s = String c' rest
             ∧ JsText.isWhiteSpace c' = false.
Proof.
  intros Hc Hws. induction s as [|c0 s IH]; simpl in *; [done|].
  destruct (JsText.isWhiteSpace c0) eqn:Hws0; [|by eauto].
  apply IH. apply orb_true_iff in Hc as [Hc|Hc]; [|done].
  apply Ascii.eqb_eq in Hc. subst. congruence.
Qed.

Lemma blank_or_not s :
  (∀ c, JsText.occurs c s = true → JsText.isWhiteSpace c = true)
  ∨ (∃ c, JsText.occurs c s = true ∧ JsText.isWhiteSpace c = false).
Proof.
  induction s as [|c0 s [Hall|(c & Hc & Hws)]]; simpl.
  - by left.
  - destruct (JsText.isWhiteSpace c0) eqn:Hws0.
    + left. intros c Hc. apply orb_true_iff in Hc as [Hc|Hc]; [|by apply Hall].
      apply Ascii.eqb_eq in Hc. by subst.
    + right. exists c0. by rewrite Ascii.eqb_refl.
  - right. exists c. rewrite Hc. by rewrite orb_true_r.
Qed.

(** Trimming leaves nothing exactly when every character is white space. *)
Lemma trim_empty s :
  JsText.trim s = ""
  ↔ ∀ c, JsText.occurs c s = true → JsText.isWhiteSpace c = true.
Proof.
  unfold JsText.trim. split.
  - intros Htrim c Hc.
    destruct (JsText.isWhiteSpace c) eqn:Hws; [done|].
    destruct (trimStart_head s c Hc Hws) as (c' & rest & Hstart & Hws').
    rewrite Hstart in Htrim.
    pose proof (proj1 (trimEnd_empty _) Htrim c') as Hall.
    simpl in Hall. rewrite Ascii.eqb_refl in Hall.
    rewrite Hall in Hws' by done. done.
  - intros Hall. by rewrite trimStart_blank.
Qed.

(** An empty search shows every tile, in order. *)
Theorem filteredTiles_empty_query st :
  App.searchQuery st = "" → View.filteredTiles st = App.tiles st.
Proof.
  intros Hq. unfold View.filteredTiles. rewrite Hq.
  induction (App.tiles st) as [|tile l IH]; [done|].
  rewrite filter_cons_True, IH; [done|].
  unfold View.matchesSearch. simpl. by rewrite includes_empty.
Qed.

(** The search does not look at the case of the query: two queries that are
    equal once in lower case select the same tiles, and so do a query and
    its lower-case form; what is shown is a part of the tiles in the order
    of the tiles. *)
Theorem filteredTiles_ignores_case st st' :
  App.tiles st' = App.tiles st →
  JsText.toLowerCase (App.searchQuery st')
  = JsText.toLowerCase (App.searchQuery st)
  ∨ App.searchQuery st' = JsText.toLowerCase (App.searchQuery st) →
  View.filteredTiles st' = View.filteredTiles st
  ∧ View.filteredTiles st `sublist_of` App.tiles st.
Proof.
  intros Htiles Hq. split; [|apply sublist_filter].
  unfold View.filteredTiles. rewrite Htiles.
  apply list_filter_iff. intros tile.
  destruct Hq as [Hq| ->]; [|by rewrite matchesSearch_lower].
  unfold View.matchesSearch. by rewrite Hq.
Qed.

(** A tile is found by its label, typed in any case. *)
Theorem filteredTiles_finds_label st tile :
  tile ∈ App.tiles st →
  JsText.toLowerCase (App.searchQuery st) = JsText.toLowerCase (label tile) →
  tile ∈ View.filteredTiles st.
Proof.
  intros Htile Hq. unfold View.filteredTiles.
  apply list_elem_of_filter. split; [|done].
  unfold View.matchesSearch. by rewrite Hq, includes_refl.
Qed.

(** A card is a link exactly when the url of its tile has a character that
    is not white space; an empty or blank url gives a card marked as not
    linked. *)
Theorem isValidUrl_iff_not_blank tile :
  View.isValidUrl tile = true
  ↔ ∃ c, JsText.occurs c (url tile) = true ∧ JsText.isWhiteSpace c = false.
Proof.
  unfold View.isValidUrl. rewrite andb_true_iff, !negb_true_iff.
  rewrite <-!not_true_iff_false, !String.eqb_eq. split.
  - intros [_ Htrim].
    destruct (blank_or_not (url tile)) as [Hall|Hsome]; [|done].
    by apply trim_empty in Hall.
  - intros (c & Hocc & Hws). split.
    + intros Hempty. by rewrite Hempty in Hocc.
    + intros Htrim. rewrite trim_empty in Htrim.
      rewrite (Htrim c Hocc) in Hws. done.
Qed.

(** What a card shows of a tile, and whether a search finds the tile, is the
    same before and after the tile went through the table: the empty strings
    that come back missing were not shown either. *)
Theorem display_same_after_readBack imageError q tile :
  View.isValidUrl (App.readBack tile) = View.isValidUrl tile
  ∧ View.showImage imageError (App.readBack tile)
    = View.showImage imageError tile
  ∧ View.descriptionShown (App.readBack tile) = View.descriptionShown tile
  ∧ label (App.readBack tile) = label tile
  ∧ View.matchesSearch q (App.readBack tile) = View.matchesSearch q tile.
Proof.
  unfold View.isValidUrl, View.showImage, View.descriptionShown,
    View.matchesSearch, App.readBack, Js.orNull.
  destruct tile as [i l u ic [img|] [d|]]; simpl;
    repeat match goal with
           | |- context [String.eqb ?x ""] =>
               destruct (String.eqb x "") eqn:?; simpl
           end;
    repeat split; congruence.
Qed.

End Display.

(** * From the editor to the table and back *)

Section Persisted.
Implicit Types (W : list TileDefinition).

#[local] Existing Instance by_sort_order_trans.
#[local] Existing Instance by_sort_order_total.

(** A reorder is kept by the save: when the tile at [i] of a working copy
    with distinct ids is dragged onto [j] and the working copy is saved with
    success, the row of that tile has sort position [j], and every client
    that fetches finds that tile at [j] among the same tiles. *)
Theorem reorder_is_persisted
    (toLocaleString : Z → string) oInsert now now' timestamp W i j x w :
  NoDup (id <$> W) → W !! i = Some x → j < length W → i ≠ j →
  Forall (λ r, TileRow.id r ≠ "") (App.table w) →
  let edited :=
    exec (LinkManager.handleDrop j)
         (exec (LinkManager.handleDragStart i) (LinkManager.mount W)) in
  let saved :=
    exec (App.handleSave Js.Succeeds Js.Succeeds now timestamp
            (LinkManager.handleSave (LinkManager.ui edited))) w in
  (∃ r, App.table saved !! j = Some r
        ∧ TileRow.id r = id x ∧ TileRow.sort_order r = Z.of_nat j)
  ∧ ∀ client, App.table client ≡ₚ App.table saved →
      let fetched :=
        App.tiles (App.ui (exec (App.fetchTiles toLocaleString Js.Succeeds
                                   oInsert now') client)) in
      fetched !! j = Some (App.readBack x)
      ∧ fetched ≡ₚ App.readBack <$> W.
Proof.
  intros Hnd Hx Hj Hne Htable edited saved.
  set (W' := LinkManager.moveTile x W i j).
  assert (LinkManager.handleSave (LinkManager.ui edited) = W') as HW'.
  { unfold edited, exec.
    by rewrite (handleDrop_within _ i j x). }
  assert (W' ≡ₚ W) as Hperm by (by eapply moveTile_Permutation).
  assert (W' !! j = Some x) as Hxj by (by apply moveTile_lookup).
  assert (NoDup (id <$> W')) as Hnd' by (by rewrite Hperm).
  destruct (handleSave_succeeds now timestamp W' w Hnd' Htable)
    as (_ & _ & _ & _ & Hrows).
  assert (App.table saved = App.rowsOf now W') as Hsaved.
  { unfold saved. by rewrite HW'. }
  split.
  - exists (TileRow.stored now (App.tileToInsert j x)).
    rewrite Hsaved. unfold App.rowsOf.
    by rewrite list_lookup_fmap, list_lookup_imap, Hxj.
  - intros client Hclient fetched. rewrite Hsaved in Hclient.
    assert (App.table client ≠ []) as Hne'.
    { intros Hnil. rewrite Hnil in Hclient.
      apply Permutation_length in Hclient. unfold App.rowsOf in Hclient.
      rewrite length_fmap, length_imap, (Permutation_length Hperm) in Hclient.
      simpl in Hclient. lia. }
    destruct (fetchTiles_rows toLocaleString oInsert now' client Hne')
      as (Hfetched & _).
    fold fetched in Hfetched.
    rewrite (merge_sort_rowsOf now W' _ Hclient), rowToTile_rowsOf
      in Hfetched.
    rewrite Hfetched. split; [by rewrite list_lookup_fmap, Hxj|].
    by rewrite Hperm.
Qed.

End Persisted.

(** * The further properties on the sample data *)

Lemma handleUpdateTile_unknown_id_witness :
  LinkManager.handleUpdateTile "z" Flabel "Zulip" Scenario.session
  = (Scenario.session, inr tt).
Proof.
  apply handleUpdateTile_unknown_id.
  apply (bool_decide_unpack _). vm_compute. exact I.
Defined.

Lemma handleUpdateTile_keeps_ids_witness :
  id <$> LinkManager.tiles (LinkManager.ui
    (exec (LinkManager.handleUpdateTile "a" Flabel "Post") Scenario.session))
  = ["a"; "b"].
Proof.
  apply (proj1 (handleUpdateTile_keeps_ids "a" Flabel "Post" Scenario.session
                  ltac:(discriminate))).
Defined.

Lemma handleUpdateTile_last_wins_witness :
  exec (LinkManager.handleUpdateTile "a" Flabel "Post")
       (exec (LinkManager.handleUpdateTile "a" Flabel "Pos") Scenario.session)
  = exec (LinkManager.handleUpdateTile "a" Flabel "Post") Scenario.session.
Proof. apply handleUpdateTile_last_wins. discriminate. Defined.

Lemma handleDeleteTile_noop_witness :
  LinkManager.handleDeleteTile true "z" Scenario.session
  = (Scenario.session, inr tt)
  ∧ LinkManager.handleDeleteTile false "a" Scenario.session
    = (Scenario.session, inr tt).
Proof.
  split; apply handleDeleteTile_noop.
  - right. apply (bool_decide_unpack _). vm_compute. exact I.
  - by left.
Defined.

Lemma handleDeleteTile_removes_witness :
  LinkManager.tiles (LinkManager.ui
    (exec (LinkManager.handleDeleteTile true "a") Scenario.session))
  = [Sample.teams].
Proof.
  apply (handleDeleteTile_removes 0 Sample.mail Scenario.session);
    [|reflexivity].
  apply (bool_decide_unpack _). vm_compute. exact I.
Defined.

Lemma handleAddTile_then_delete_witness :
  LinkManager.tiles (LinkManager.ui
    (exec (LinkManager.handleDeleteTile true "custom-1700000000000")
       (exec (LinkManager.handleAddTile 1700000000000) Scenario.session)))
  = [Sample.mail; Sample.teams].
Proof.
  apply (handleAddTile_then_delete 1700000000000 Scenario.session).
  apply (bool_decide_unpack _). vm_compute. exact I.
Defined.

Lemma handleDrop_there_and_back_witness :
  LinkManager.tiles (LinkManager.ui
    (exec (LinkManager.handleDrop 0)
       (exec (LinkManager.handleDragStart 1)
          (exec (LinkManager.handleDrop 1)
             (exec (LinkManager.handleDragStart 0) Scenario.session)))))
  = [Sample.mail; Sample.teams].
Proof.
  apply (handleDrop_there_and_back 0 1 Scenario.session); simpl; lia.
Defined.

Lemma drag_handlers_keep_consistent_witness :
  Drag.consistent (LinkManager.ui
    (Drag.handler (Drag.DragOver 1) (Sample.dragging 0)).1).
Proof.
  apply (drag_handlers_keep_consistent (Drag.DragOver 1) (Sample.dragging 0)).
  - exact I.
  - discriminate.
Defined.

Lemma handleImageUpload_failure_witness :
  LinkManager.ui
    (exec (LinkManager.handleImageUpload Sample.getPublicUrl
             (Js.ReturnsError "Bucket not found") 1700000000000 "a"
             Sample.logo_1MiB) Scenario.session)
  = LinkManager.ui Scenario.session.
Proof.
  unfold exec.
  rewrite (handleImageUpload_failure Sample.getPublicUrl
             (Js.ReturnsError "Bucket not found") 1700000000000 "a"
             Sample.logo_1MiB Scenario.session "Bucket not found");
    [reflexivity | vm_compute; discriminate | by left].
Defined.

Lemma handleImageUpload_file_name_witness :
  ∃ ext pre,
    (LinkManager.handleImageUpload_start "a" Scenario.logo_no_dot
       1700000000000 Scenario.session).2
    = inr (Some ("a" +:+ "-" +:+ pretty 1700000000000%Z +:+ "." +:+ ext))
    ∧ "logo" = pre +:+ ext
    ∧ JsText.occurs "." ext = false
    ∧ (JsText.occurs "." "logo" = false → ext = "logo").
Proof.
  apply (handleImageUpload_file_name "a" Scenario.logo_no_dot 1700000000000
           Scenario.session).
  vm_compute. discriminate.
Defined.

Lemma upload_then_remove_restores_bucket_witness :
  LinkManager.bucket
    (exec (LinkManager.handleRemoveImage Js.Succeeds "a"
             (Some (Sample.getPublicUrl "a-1700000000000.png")))
       (exec (LinkManager.handleImageUpload Sample.getPublicUrl Js.Succeeds
                1700000000000 "a" Sample.logo_1MiB) Scenario.session))
  = [].
Proof.
  destruct (upload_then_remove_restores_bucket Sample.getPublicUrl
              "https://project.supabase.co/storage/v1/object/public/tile-images"
              1700000000000 "a" Sample.logo_1MiB Scenario.session)
    as (_ & Hbucket & _).
  - vm_compute. discriminate.
  - vm_compute. reflexivity.
  - vm_compute. reflexivity.
  - apply (bool_decide_unpack _). vm_compute. exact I.
  - exact Hbucket.
Defined.

Lemma gate_holds_without_overlap_witness :
  LinkManager.inflight Scenario.uploading ≠ []
  ∧ LinkManager.saveDisabled false
      (LinkManager.ui (LinkManager.sys Scenario.uploading))
    = true.
Proof.
  destruct (gate_holds_without_overlap Sample.getPublicUrl
              (LinkManager.ChooseFile "a" Sample.logo_1MiB 1700000000000)
              {| LinkManager.sys := Scenario.session;
                 LinkManager.inflight := [] |})
    as (_ & _ & Hgate).
  - simpl. lia.
  - by intros [].
  - reflexivity.
  - split; [discriminate|]. apply Hgate. discriminate.
Defined.

Lemma fetchTiles_failure_witness :
  App.tiles (App.ui
    (exec (App.fetchTiles Sample.toLocaleString (Js.Throws "Failed to fetch")
             Js.Succeeds 1700000000000) Sample.fresh))
  = DEFAULT_TILES.
Proof.
  unfold exec.
  rewrite (fetchTiles_failure Sample.toLocaleString
             (Js.Throws "Failed to fetch") Js.Succeeds 1700000000000
             Sample.fresh "Failed to fetch"); [reflexivity | by right].
Defined.

Lemma fetchTiles_lastUpdated_witness :
  ∃ m : Z,
    (0 ≤ m)%Z
    ∧ (∀ row, row ∈ App.table Sample.dashboard → (TileRow.updated_at row ≤ m)%Z)
    ∧ (m = 0%Z
       ∨ ∃ row, row ∈ App.table Sample.dashboard ∧ TileRow.updated_at row = m)
    ∧ App.lastUpdated (App.ui
        (exec (App.fetchTiles Sample.toLocaleString Js.Succeeds Js.Succeeds
                 1700000000999) Sample.dashboard))
      = if (0 <? m)%Z then Some (Sample.toLocaleString m)
        else App.lastUpdated (App.ui Sample.dashboard).
Proof.
  apply (fetchTiles_lastUpdated Sample.toLocaleString Js.Succeeds
           1700000000999 Sample.dashboard).
  discriminate.
Defined.

Lemma fetchTiles_idempotent_witness :
  exec (App.fetchTiles Sample.toLocaleString Js.Succeeds Js.Succeeds
          1700000000999)
       (exec (App.fetchTiles Sample.toLocaleString Js.Succeeds Js.Succeeds
                1700000000500) Sample.dashboard)
  = exec (App.fetchTiles Sample.toLocaleString Js.Succeeds Js.Succeeds
            1700000000500) Sample.dashboard.
Proof. apply fetchTiles_idempotent. discriminate. Defined.

Lemma fetchTiles_order_witness :
  App.tiles (App.ui
    (exec (App.fetchTiles Sample.toLocaleString Js.Succeeds Js.Succeeds
             1700000000999) Scenario.other_client))
  = App.tiles (App.ui
      (exec (App.fetchTiles Sample.toLocaleString Js.Succeeds Js.Succeeds
               1700000000999) Sample.dashboard)).
Proof.
  apply (proj2 (fetchTiles_order Sample.toLocaleString Js.Succeeds
                  1700000000999 Sample.dashboard ltac:(discriminate))).
  - apply (bool_decide_unpack _). vm_compute. exact I.
  - apply reverse_Permutation.
Defined.

Lemma handleSave_failed_insert_loses_rows_witness :
  let w1 := exec (App.handleSave Js.Succeeds (Js.Throws "Failed to fetch")
                    1700000000000 "03/11/2026, 10:00:00" [Sample.teams])
                 Sample.dashboard in
  App.table w1 = []
  ∧ App.tiles (App.ui w1) = [Sample.mail; Sample.teams]
  ∧ App.tiles (App.ui
      (exec (App.fetchTiles Sample.toLocaleString Js.Succeeds Js.Succeeds
               1700000000999) w1))
    = DEFAULT_TILES.
Proof.
  intros w1.
  destruct (handleSave_failed_insert_loses_rows Sample.toLocaleString
              (Js.Throws "Failed to fetch") 1700000000000 1700000000999
              "03/11/2026, 10:00:00" [Sample.teams] Sample.dashboard
              "Failed to fetch")
    as (Hempty & Hkept & _ & Hseeded & _).
  - apply (bool_decide_unpack _). vm_compute. exact I.
  - reflexivity.
  - by repeat split.
Defined.

Lemma handleSave_duplicate_ids_witness :
  let w1 := exec (App.handleSave Js.Succeeds Js.Succeeds 1700000000000
                    "03/11/2026, 10:00:00" Scenario.twice)
                 Sample.dashboard in
  App.error (App.ui w1) = Some "Failed to save changes. Please try again."
  ∧ App.table w1 = [].
Proof.
  intros w1.
  destruct (handleSave_duplicate_ids 1700000000000 "03/11/2026, 10:00:00"
              Scenario.twice Sample.dashboard)
    as (Herror & _ & _ & Hempty).
  - apply (bool_decide_unpack _). vm_compute. exact I.
  - apply (bool_decide_unpack _). vm_compute. exact I.
  - by split.
Defined.

Lemma handleReset_then_fetch_witness :
  let w1 := exec (App.handleReset Js.Succeeds Js.Succeeds 1700000000000)
                 Sample.dashboard in
  App.tiles (App.ui w1) = DEFAULT_TILES
  ∧ App.tiles (App.ui
      (exec (App.fetchTiles Sample.toLocaleString Js.Succeeds Js.Succeeds
               1700000000999) w1))
    = DEFAULT_TILES.
Proof.
  intros w1.
  destruct (handleReset_then_fetch Sample.toLocaleString Js.Succeeds
              1700000000000 1700000000999 Sample.dashboard)
    as (Htiles & _ & _ & _ & _ & Hfetch).
  - apply (bool_decide_unpack _). vm_compute. exact I.
  - split; [exact Htiles|]. by apply Hfetch.
Defined.

Lemma filteredTiles_empty_query_witness :
  View.filteredTiles (Scenario.searching "") = [Sample.mail; Sample.teams].
Proof. by apply (filteredTiles_empty_query (Scenario.searching "")). Defined.

Lemma filteredTiles_ignores_case_witness :
  View.filteredTiles (Scenario.searching "TEAMS")
  = View.filteredTiles (Scenario.searching "teams").
Proof.
  apply (filteredTiles_ignores_case (Scenario.searching "teams")
           (Scenario.searching "TEAMS")); [reflexivity|].
  left. vm_compute. reflexivity.
Defined.

Lemma filteredTiles_finds_label_witness :
  Sample.mail ∈ View.filteredTiles (Scenario.searching "MAIL").
Proof.
  apply (filteredTiles_finds_label (Scenario.searching "MAIL") Sample.mail).
  - apply (bool_decide_unpack _). vm_compute. exact I.
  - vm_compute. reflexivity.
Defined.

Lemma reorder_is_persisted_witness :
  let saved :=
    exec (App.handleSave Js.Succeeds Js.Succeeds 1700000000000
            "03/11/2026, 10:00:00"
            (LinkManager.handleSave
               (LinkManager.ui
                  (exec (LinkManager.handleDrop 1)
                     (exec (LinkManager.handleDragStart 0)
                        (LinkManager.mount [Sample.mail; Sample.teams]))))))
         Sample.dashboard in
  App.tiles (App.ui (exec (App.fetchTiles Sample.toLocaleString
                             Js.Succeeds Js.Succeeds 1700000000999)
                          saved)) !! 1
  = Some Sample.mail.
Proof.
  intros saved.
  destruct (reorder_is_persisted Sample.toLocaleString Js.Succeeds
              1700000000000 1700000000999 "03/11/2026, 10:00:00"
              [Sample.mail; Sample.teams] 0 1 Sample.mail Sample.dashboard)
    as (_ & Hfetch).
  - apply (bool_decide_unpack _). vm_compute. exact I.
  - reflexivity.
  - simpl. lia.
  - lia.
  - apply (bool_decide_unpack _). vm_compute. exact I.
  - by destruct (Hfetch saved (reflexivity _)) as [-> _].
Defined.
